(** * gerador-times-back: the standings aggregator and the owner-scoped routes

    A shallow embedding of [calculateTeamStats] (src/server.js) and of the
    Group and Match route handlers (src/server.js and the older copy of the
    server kept next to it), with the properties of the specification stated
    over them. *)

From Stdlib Require Import ZArith NArith String Ascii.
From stdpp Require Import base option list sorting gmap.

Set Warnings "-clear-no-such-hyp".

Local Open Scope Z_scope.

(** ** JavaScript values used by the aggregator *)

(** A JavaScript string is a sequence of UTF-16 code units. *)
Definition jsstring : Type := list N.

(** Literals, for readable examples: every character of an ASCII literal is
    one code unit. *)
Definition str (s : string) : jsstring :=
  (λ c, N_of_ascii c) <$> list_ascii_of_string s.

(** The [<] of JavaScript on strings: lexicographic on code units. *)
Fixpoint str_compare (s t : jsstring) : comparison :=
  match s, t with
  | [], [] => Eq
  | [], _ :: _ => Lt
  | _ :: _, [] => Gt
  | c :: s', d :: t' =>
      match N.compare c d with
      | Eq => str_compare s' t'
      | o => o
      end
  end.

Definition str_le (s t : jsstring) : Prop := str_compare s t ≠ Gt.

Global Instance str_le_dec : RelDecision str_le.
Proof. intros s t. unfold str_le. apply _. Defined.

(** A JavaScript number.  Integers are exact in a double below 2^53, and the
    scores, counters and sums of the aggregator are integers, so a number is
    an integer of [Z] or [NaN].  An absent score ([undefined]) is converted
    with ToNumber by [+=], [>] and [<], the only operations applied to it,
    which gives [NaN]: an absent score is [NaN] here.  Fractions, infinities
    and integers from 2^53 on, where a double rounds, are not represented:
    what depends on exact sums is stated for [safe_scores] below. *)
Inductive jsnum : Type :=
  | Num (z : Z)
  | NaN.

Definition js_add (x y : jsnum) : jsnum :=
  match x, y with
  | Num a, Num b => Num (a + b)
  | _, _ => NaN
  end.

Definition js_sub (x y : jsnum) : jsnum :=
  match x, y with
  | Num a, Num b => Num (a - b)
  | _, _ => NaN
  end.

(** [x > y] and [x < y]: false as soon as one side is [NaN]. *)
Definition js_gt (x y : jsnum) : bool :=
  match x, y with
  | Num a, Num b => bool_decide (a > b)
  | _, _ => false
  end.

Definition js_lt (x y : jsnum) : bool :=
  match x, y with
  | Num a, Num b => bool_decide (a < b)
  | _, _ => false
  end.

(** [x >= y] *)
Definition js_ge (x y : jsnum) : bool :=
  match x, y with
  | Num a, Num b => bool_decide (b ≤ a)
  | _, _ => false
  end.

Definition is_num (x : jsnum) : Prop :=
  match x with Num _ => True | NaN => False end.

Global Instance jsnum_eq_dec : EqDecision jsnum.
Proof. solve_decision. Defined.

(** ** Array.prototype.sort and Array.prototype.join *)

(** [sort] is stable, and with a consistent comparator its result is the one
    stable sorted arrangement of the array, whatever algorithm the engine
    runs; insertion from the right computes it.  The comparator's number is
    kept as its sign, with [NaN] read as [0] as [sort] itself does.  With a
    comparator that is not consistent the order is the engine's own, and
    only what holds of every arrangement is to be read off this one. *)
Section ArraySort.
Context {A : Type} (comparefn : A → A → Z).

Fixpoint sort_insert (x : A) (l : list A) : list A :=
  match l with
  | [] => [x]
  | y :: l' =>
      if bool_decide (comparefn x y ≤ 0) then x :: l
      else y :: sort_insert x l'
  end.

Definition array_sort (l : list A) : list A := foldr sort_insert [] l.

(** [x] may stand before [y]. *)
Definition before (x y : A) : Prop := comparefn x y ≤ 0.
End ArraySort.

(** The default comparator of [sort()]: compare the elements as strings. *)
Definition default_compare (x y : jsstring) : Z :=
  match str_compare x y with
  | Lt => -1
  | Eq => 0
  | Gt => 1
  end.

(** [arr.sort()] on an array of strings.  It sorts [arr] in place and returns
    [arr] itself: the callers below store the result back into the record
    the array came from. *)
Definition sort_strings (arr : list jsstring) : list jsstring :=
  array_sort default_compare arr.

Definition comma : jsstring := [44%N].

(** [arr.join(sep)] *)
Fixpoint join (sep : jsstring) (arr : list jsstring) : jsstring :=
  match arr with
  | [] => []
  | [x] => x
  | x :: rest => x ++ sep ++ join sep rest
  end.

(** ** Objects used as maps *)

(** The own properties of an object literal, in creation order, which is the
    order [Object.values] follows for keys that are not array indices. *)
Abbreviation object V := (list (jsstring * V)).

(** The properties every object literal inherits from [Object.prototype]. *)
Definition Object_prototype_names : list jsstring :=
  str <$> [ "constructor"; "__defineGetter__"; "__defineSetter__";
            "hasOwnProperty"; "__lookupGetter__"; "__lookupSetter__";
            "isPrototypeOf"; "propertyIsEnumerable"; "toString"; "valueOf";
            "__proto__"; "toLocaleString" ]%string.

Definition inherited (k : jsstring) : bool :=
  bool_decide (k ∈ Object_prototype_names).

(** What [o[k]] evaluates to. *)
Inductive property (V : Type) : Type :=
  | Own (v : V)
  | Inherited
  | Undefined.
Arguments Own {V} v.
Arguments Inherited {V}.
Arguments Undefined {V}.

Fixpoint own {V} (o : object V) (k : jsstring) : option V :=
  match o with
  | [] => None
  | (k', v) :: o' => if decide (k' = k) then Some v else own o' k
  end.

(** [o[k]]: an own property first, then the prototype.  The inherited
    members are functions, and [__proto__] reads as the prototype object. *)
Definition get {V} (o : object V) (k : jsstring) : property V :=
  match own o k with
  | Some v => Own v
  | None => if inherited k then Inherited else Undefined
  end.

(** [!o[k]]: objects and functions are truthy, [undefined] is not. *)
Definition falsy {V} (p : property V) : bool :=
  match p with
  | Undefined => true
  | _ => false
  end.

(** [o[k] = v], for a key that is not [__proto__]: an own property keeps its
    place, a new one goes last. *)
Fixpoint put {V} (k : jsstring) (v : V) (o : object V) : object V :=
  match o with
  | [] => [(k, v)]
  | (k', v') :: o' =>
      if decide (k' = k) then (k', v) :: o' else (k', v') :: put k v o'
  end.

(** The object after the value stored under the own key [k] was mutated
    through a reference to it. *)
Definition at_key {V} (k : jsstring) (f : V → V) (p : jsstring * V)
    : jsstring * V :=
  if decide (p.1 = k) then (p.1, f p.2) else p.

Definition modify {V} (k : jsstring) (f : V → V) (o : object V) : object V :=
  at_key k f <$> o.

(** Canonical decimal numerals below 2^32 - 1 are array indices. *)
Definition digit (c : N) : option N :=
  if bool_decide (48 ≤ c ∧ c ≤ 57)%N then Some (c - 48)%N else None.

Fixpoint decimal (acc : N) (s : jsstring) : option N :=
  match s with
  | [] => Some acc
  | c :: s' => d ← digit c; decimal (10 * acc + d)%N s'
  end.

Definition array_index (k : jsstring) : option N :=
  match k with
  | [] => None
  | [48%N] => Some 0%N
  | 48%N :: _ => None
  | _ => n ← decimal 0 k; if bool_decide (n < 2 ^ 32 - 1)%N then Some n else None
  end.

(** [Object.values(o)]: the values under array-index keys in ascending
    numeric order, then the others in creation order. *)
Definition Object_values {V} (o : object V) : list V :=
  let indexed := omap (λ p : jsstring * V, (λ i, (i, p.2)) <$> array_index p.1) o in
  let named := filter (λ p : jsstring * V, array_index p.1 = None) o in
  (array_sort (λ x y : N * V, Z.of_N x.1 - Z.of_N y.1) indexed).*2 ++ named.*2.

(** ** The data model *)

(** A match document.  [_id] and the timestamps are not read by any code
    below. *)
Record Match : Type := {
  teamA : list jsstring;
  teamB : list jsstring;
  scoreA : jsnum;
  scoreB : jsnum;
  date : Z;
  userId : jsstring
}.

(** The accumulator of one team.  The counters start at the literal [0] and
    are only incremented, so they are integers; the goal sums take the
    scores in. *)
Record TeamStat : Type := {
  team : list jsstring;
  wins : Z;
  losses : Z;
  draws : Z;
  goalsFor : jsnum;
  goalsAgainst : jsnum;
  matches : Z
}.

(** [{...stat, points, goalDifference}] *)
Record RankedStat : Type := {
  stat :> TeamStat;
  points : Z;
  goalDifference : jsnum
}.

Global Instance Match_eq_dec : EqDecision Match.
Proof. solve_decision. Defined.
Global Instance TeamStat_eq_dec : EqDecision TeamStat.
Proof. solve_decision. Defined.
Global Instance RankedStat_eq_dec : EqDecision RankedStat.
Proof. solve_decision. Defined.

(** ** calculateTeamStats *)

Definition newStat (roster : list jsstring) : TeamStat :=
  {| team := roster; wins := 0; losses := 0; draws := 0;
     goalsFor := Num 0; goalsAgainst := Num 0; matches := 0 |}.

(** The assignments of the loop body, each on one field. *)
Definition inc_matches (s : TeamStat) : TeamStat :=
  {| team := team s; wins := wins s; losses := losses s; draws := draws s;
     goalsFor := goalsFor s; goalsAgainst := goalsAgainst s;
     matches := matches s + 1 |}.

Definition add_goalsFor (x : jsnum) (s : TeamStat) : TeamStat :=
  {| team := team s; wins := wins s; losses := losses s; draws := draws s;
     goalsFor := js_add (goalsFor s) x; goalsAgainst := goalsAgainst s;
     matches := matches s |}.

Definition add_goalsAgainst (x : jsnum) (s : TeamStat) : TeamStat :=
  {| team := team s; wins := wins s; losses := losses s; draws := draws s;
     goalsFor := goalsFor s; goalsAgainst := js_add (goalsAgainst s) x;
     matches := matches s |}.

Definition inc_wins (s : TeamStat) : TeamStat :=
  {| team := team s; wins := wins s + 1; losses := losses s; draws := draws s;
     goalsFor := goalsFor s; goalsAgainst := goalsAgainst s;
     matches := matches s |}.

Definition inc_losses (s : TeamStat) : TeamStat :=
  {| team := team s; wins := wins s; losses := losses s + 1; draws := draws s;
     goalsFor := goalsFor s; goalsAgainst := goalsAgainst s;
     matches := matches s |}.

Definition inc_draws (s : TeamStat) : TeamStat :=
  {| team := team s; wins := wins s; losses := losses s; draws := draws s + 1;
     goalsFor := goalsFor s; goalsAgainst := goalsAgainst s;
     matches := matches s |}.

(** [teamStats[k].field = ...]: the property is read, then the object it
    refers to is mutated.  [None] is the TypeError of reading a field of
    [undefined].  Under an inherited name the object mutated is a member of
    [Object.prototype], not a property of [teamStats]; what is stored on it
    is [NaN] ([undefined + 1]), which is falsy and so changes no later
    [!teamStats[k]]. *)
Definition update (k : jsstring) (f : TeamStat → TeamStat)
    (teamStats : object TeamStat) : option (object TeamStat) :=
  match get teamStats k with
  | Own _ => Some (modify k f teamStats)
  | Inherited => Some teamStats
  | Undefined => None
  end.

(** The callback of [matches.forEach].  It returns the accumulator and the
    match record as the body leaves it: [match.teamA.sort()] and
    [match.teamB.sort()] reorder the record's own arrays, and
    [team: match.teamA] stores a reference to the array just sorted. *)
Definition forEach_body (teamStats : object TeamStat) (m : Match)
    : option (object TeamStat * Match) :=
  let m := {| teamA := sort_strings (teamA m); teamB := teamB m;
              scoreA := scoreA m; scoreB := scoreB m;
              date := date m; userId := userId m |} in
  let teamAKey := join comma (teamA m) in
  let m := {| teamA := teamA m; teamB := sort_strings (teamB m);
              scoreA := scoreA m; scoreB := scoreB m;
              date := date m; userId := userId m |} in
  let teamBKey := join comma (teamB m) in
  let teamStats :=
    if falsy (get teamStats teamAKey)
    then put teamAKey (newStat (teamA m)) teamStats else teamStats in
  let teamStats :=
    if falsy (get teamStats teamBKey)
    then put teamBKey (newStat (teamB m)) teamStats else teamStats in
  teamStats ← update teamAKey inc_matches teamStats;
  teamStats ← update teamBKey inc_matches teamStats;
  teamStats ← update teamAKey (add_goalsFor (scoreA m)) teamStats;
  teamStats ← update teamAKey (add_goalsAgainst (scoreB m)) teamStats;
  teamStats ← update teamBKey (add_goalsFor (scoreB m)) teamStats;
  teamStats ← update teamBKey (add_goalsAgainst (scoreA m)) teamStats;
  teamStats ←
    (if js_gt (scoreA m) (scoreB m) then
       teamStats ← update teamAKey inc_wins teamStats;
       update teamBKey inc_losses teamStats
     else if js_lt (scoreA m) (scoreB m) then
       teamStats ← update teamAKey inc_losses teamStats;
       update teamBKey inc_wins teamStats
     else
       teamStats ← update teamAKey inc_draws teamStats;
       update teamBKey inc_draws teamStats);
  Some (teamStats, m).

(** [matches.forEach(match => ...)], from the accumulator [teamStats]. *)
Fixpoint forEach (teamStats : object TeamStat) (ms : list Match)
    : option (object TeamStat * list Match) :=
  match ms with
  | [] => Some (teamStats, [])
  | m :: rest =>
      '(teamStats, m') ← forEach_body teamStats m;
      '(teamStats, rest') ← forEach teamStats rest;
      Some (teamStats, m' :: rest')
  end.

Definition rank (s : TeamStat) : RankedStat :=
  {| stat := s;
     points := wins s * 3 + draws s;
     goalDifference := js_sub (goalsFor s) (goalsAgainst s) |}.

(** [(a, b) => b.points - a.points || b.goalDifference - a.goalDifference] *)
Definition by_rank (a b : RankedStat) : Z :=
  if bool_decide (points b - points a ≠ 0) then points b - points a
  else match js_sub (goalDifference b) (goalDifference a) with
       | Num d => d
       | NaN => 0
       end.

(** The function: the ranked entries it returns, and the [matches] array as
    the call leaves it. *)
Definition calculateTeamStats (ms : list Match)
    : option (list RankedStat * list Match) :=
  '(teamStats, ms') ← forEach [] ms;
  Some (array_sort by_rank (rank <$> Object_values teamStats), ms').

(** The key under which a roster is counted. *)
Definition teamKey (roster : list jsstring) : jsstring :=
  join comma (sort_strings roster).

(** The rosters of a match list in the order the loop meets them. *)
Definition rosters (ms : list Match) : list (list jsstring) :=
  ms ≫= λ m, [teamA m; teamB m].

(** The loop body in one expression: the two guarded initialisations, then
    what the assignments do together to the entry of each side. *)
Definition ensure (k : jsstring) (roster : list jsstring)
    (teamStats : object TeamStat) : object TeamStat :=
  if falsy (get teamStats k) then put k (newStat roster) teamStats
  else teamStats.

Definition sideA (m : Match) (s : TeamStat) : TeamStat :=
  (if js_gt (scoreA m) (scoreB m) then inc_wins
   else if js_lt (scoreA m) (scoreB m) then inc_losses else inc_draws)
    (add_goalsAgainst (scoreB m) (add_goalsFor (scoreA m) (inc_matches s))).

Definition sideB (m : Match) (s : TeamStat) : TeamStat :=
  (if js_gt (scoreA m) (scoreB m) then inc_losses
   else if js_lt (scoreA m) (scoreB m) then inc_wins else inc_draws)
    (add_goalsAgainst (scoreA m) (add_goalsFor (scoreB m) (inc_matches s))).

(** The match record with both rosters sorted. *)
Definition sorted_match (m : Match) : Match :=
  {| teamA := sort_strings (teamA m); teamB := sort_strings (teamB m);
     scoreA := scoreA m; scoreB := scoreB m;
     date := date m; userId := userId m |}.

Definition body_result (teamStats : object TeamStat) (m : Match)
    : object TeamStat :=
  modify (teamKey (teamB m)) (sideB m)
    (modify (teamKey (teamA m)) (sideA m)
       (ensure (teamKey (teamB m)) (sort_strings (teamB m))
          (ensure (teamKey (teamA m)) (sort_strings (teamA m)) teamStats))).

(** The accumulator after the whole loop. *)
Definition teamStats_of (ms : list Match) : object TeamStat :=
  foldl body_result [] ms.

(** The loop body seen from one key: what happens to the property [k]. *)
Definition key_step (k : jsstring) (m : Match) (o : option TeamStat)
    : option TeamStat :=
  let o := if decide (teamKey (teamA m) = k)
           then Some (default (newStat (sort_strings (teamA m))) o) else o in
  let o := if decide (teamKey (teamB m) = k)
           then Some (default (newStat (sort_strings (teamB m))) o) else o in
  let o := if decide (teamKey (teamA m) = k) then sideA m <$> o else o in
  if decide (teamKey (teamB m) = k) then sideB m <$> o else o.

(** The first roster of the list counted under the key [k]. *)
Fixpoint first_roster (k : jsstring) (rs : list (list jsstring))
    : option (list jsstring) :=
  match rs with
  | [] => None
  | r :: rs' => if decide (teamKey r = k) then Some r else first_roster k rs'
  end.

Definition keys_of (ms : list Match) : list jsstring :=
  teamKey <$> rosters ms.

Definition numeric (m : Match) : Prop := is_num (scoreA m) ∧ is_num (scoreB m).

(** One of the goal sums is [NaN]. *)
Definition poisoned (s : TeamStat) : Prop :=
  goalsFor s = NaN ∨ goalsAgainst s = NaN.

(** The sum of a sequence of numbers. *)
Definition js_sum (l : list jsnum) : jsnum := foldr js_add (Num 0) l.

(** The per-match update rule in the words of the specification, for one
    side of the match: [mine] is the side's own score, [theirs] the
    opponent's. *)
Definition rule_side (mine theirs : jsnum) (s : TeamStat) : TeamStat :=
  {| team := team s;
     wins := wins s + (if js_gt mine theirs then 1 else 0);
     losses := losses s + (if js_lt mine theirs then 1 else 0);
     draws := draws s + (if decide (mine = theirs) then 1 else 0);
     goalsFor := js_add (goalsFor s) mine;
     goalsAgainst := js_add (goalsAgainst s) theirs;
     matches := matches s + 1 |}.

(** A field of the accumulators, summed over the object. *)
Definition field_total (field : TeamStat → jsnum) (ts : object TeamStat)
    : jsnum :=
  js_sum (field <$> ts.*2).

(** The keys of a match list that do get an entry. *)
Definition counted_keys (ms : list Match) : list jsstring :=
  remove_dups (filter (λ k, inherited k = false) (keys_of ms)).

Definition mkMatch (a b : list string) (x y : jsnum) : Match :=
  {| teamA := str <$> a; teamB := str <$> b; scoreA := x; scoreB := y;
     date := 0; userId := str "u1" |}.

(** Sample inputs. *)
Definition two_matches : list Match :=
  [ mkMatch ["Alice"; "Bob"]%string ["Cara"; "Dan"]%string (Num 1) (Num 1);
    mkMatch ["Eve"]%string ["Bob"; "Alice"]%string (Num 0) (Num 2) ].

Definition bob_first : list Match :=
  [ mkMatch ["Bob"; "Alice"]%string ["Cara"]%string (Num 1) (Num 0) ].

Definition absent_score : list Match :=
  [ mkMatch ["Alice"]%string ["Bob"]%string NaN (Num 1) ].

Definition constructor_team : list Match :=
  [ mkMatch ["constructor"]%string ["Bob"]%string (Num 3) (Num 1) ].

Definition constructor_both : list Match :=
  [ mkMatch ["constructor"]%string ["constructor"]%string (Num 3) (Num 1) ].


(** ** The route handlers *)

Record Member : Type := { member_name : jsstring; active : bool }.

Module GroupDoc.
(** A group document; its [_id] is the key it is stored under. *)
Record t : Type := {
  name : jsstring;
  members : list Member;
  userId : jsstring
}.
End GroupDoc.
Abbreviation Group := GroupDoc.t.

(** A collection: the documents by [_id]. *)
Abbreviation collection D := (gmap N D).

(** The JSON body of a group request, with the paths the schema knows. *)
Record GroupBody : Type := {
  body_name : option jsstring;
  body_members : option (list Member);
  body_userId : option jsstring
}.

(** The JSON body of [POST /api/matches]. *)
Record MatchBody : Type := {
  body_teamA : option (list jsstring);
  body_teamB : option (list jsstring);
  body_scoreA : option Z;
  body_scoreB : option Z;
  body_date : option Z;
  body_match_userId : option jsstring
}.

Inductive payload : Type :=
  | Groups (gs : list (N * Group))
  | OneGroup (id : N) (g : Group)
  | Matches (ms : list (N * Match))
  | OneMatch (id : N) (m : Match)
  | Stats (l : list RankedStat)
  | Message
  | ErrorMessage.

(** Status code and JSON body. *)
Record response : Type := { status : Z; body : payload }.

(** [Model.find({ userId })] *)
Definition find_by_userId {D} (owner : D → jsstring) (u : jsstring)
    (c : collection D) : list (N * D) :=
  filter (λ p : N * D, owner p.2 = u) (map_to_list c).

(** [Model.findOne({ _id, userId })] *)
Definition findOne_by_id_and_userId {D} (owner : D → jsstring) (id : N)
    (u : jsstring) (c : collection D) : option D :=
  d ← c !! id; if decide (owner d = u) then Some d else None.

(** The [_id] a new document gets. *)
Definition new_id {D} (c : collection D) : N := fresh (dom c).

(** What [jwt.decode] makes of the Authorization header, for a token whose
    [sub] claim is a string; [sub_claim] below takes any claim. *)
Inductive authorization : Type :=
  | NoToken
  | NotDecodable
  | Decoded (sub : jsstring).

(** [authenticateToken], then the handler with [req.user.sub]. *)
Definition authenticateToken {S} (auth : authorization)
    (next : jsstring → S → response * S) (s : S) : response * S :=
  match auth with
  | NoToken => ({| status := 401; body := ErrorMessage |}, s)
  | NotDecodable => ({| status := 403; body := ErrorMessage |}, s)
  | Decoded sub => next sub s
  end.

Section Routes.
(** Schema validation on [save()] is the object-document mapper's. *)
Variable validate_group : Group → bool.
Variable validate_match : Match → bool.

(** [doc.save()] of a new document. *)
Definition save_new {D} (validate : D → bool) (d : D) (c : collection D)
    : option (N * collection D) :=
  if validate d then Some (new_id c, <[new_id c := d]> c) else None.

(** The server of src/server.js: every route behind [authenticateToken],
    for a [sub] that is a string and an [:id] that is a document id; the
    other requests are taken up with [sub_claim] below. *)
Definition get_api_groups (sub : jsstring) (c : collection Group)
    : response * collection Group :=
  ({| status := 200; body := Groups (find_by_userId GroupDoc.userId sub c) |}, c).

Definition post_api_groups (b : GroupBody) (sub : jsstring)
    (c : collection Group) : response * collection Group :=
  match body_name b with
  | None => ({| status := 400; body := ErrorMessage |}, c)
  | Some n =>
      let group := {| GroupDoc.name := n;
                      GroupDoc.members := default [] (body_members b);
                      GroupDoc.userId := sub |} in
      match save_new validate_group group c with
      | Some (id, c') => ({| status := 201; body := OneGroup id group |}, c')
      | None => ({| status := 400; body := ErrorMessage |}, c)
      end
  end.

(** [req.body.name || group.name]: an absent or empty name keeps the old
    one; an array is always truthy. *)
Definition put_api_groups_id (id : N) (b : GroupBody) (sub : jsstring)
    (c : collection Group) : response * collection Group :=
  match findOne_by_id_and_userId GroupDoc.userId id sub c with
  | None => ({| status := 404; body := ErrorMessage |}, c)
  | Some group =>
      let group :=
        {| GroupDoc.name :=
             match body_name b with
             | Some (ch :: n) => ch :: n
             | _ => GroupDoc.name group
             end;
           GroupDoc.members := default (GroupDoc.members group) (body_members b);
           GroupDoc.userId := GroupDoc.userId group |} in
      if validate_group group
      then ({| status := 200; body := OneGroup id group |}, <[id := group]> c)
      else ({| status := 400; body := ErrorMessage |}, c)
  end.

Definition delete_api_groups_id (id : N) (sub : jsstring)
    (c : collection Group) : response * collection Group :=
  match findOne_by_id_and_userId GroupDoc.userId id sub c with
  | None => ({| status := 404; body := ErrorMessage |}, c)
  | Some _ => ({| status := 200; body := Message |}, delete id c)
  end.


(** [now] is the clock read by the schema's [default: Date.now]. *)
Definition post_api_matches (now : Z) (b : MatchBody) (sub : jsstring)
    (c : collection Match) : response * collection Match :=
  match body_scoreA b, body_scoreB b with
  | Some x, Some y =>
      let m := {| teamA := default [] (body_teamA b);
                  teamB := default [] (body_teamB b);
                  scoreA := Num x; scoreB := Num y;
                  date := default now (body_date b); userId := sub |} in
      match save_new validate_match m c with
      | Some (id, c') => ({| status := 201; body := OneMatch id m |}, c')
      | None => ({| status := 400; body := ErrorMessage |}, c)
      end
  | _, _ => ({| status := 400; body := ErrorMessage |}, c)
  end.

End Routes.

(** The older server kept in the repository (the unnamed source file): the
    same group routes with no authentication. *)
Module Legacy.
Section Routes.
Variable validate_group : Group → bool.

(** [const { userId } = req.query; Group.find({ userId })] *)
Definition get_api_groups (query_userId : jsstring) (c : collection Group)
    : response * collection Group :=
  ({| status := 200;
      body := Groups (find_by_userId GroupDoc.userId query_userId c) |}, c).

(** [new Group(req.body)] *)
Definition post_api_groups (b : GroupBody) (c : collection Group)
    : response * collection Group :=
  match body_name b, body_userId b with
  | Some n, Some u =>
      let group := {| GroupDoc.name := n;
                      GroupDoc.members := default [] (body_members b);
                      GroupDoc.userId := u |} in
      match save_new validate_group group c with
      | Some (id, c') => ({| status := 201; body := OneGroup id group |}, c')
      | None => ({| status := 400; body := ErrorMessage |}, c)
      end
  | _, _ => ({| status := 400; body := ErrorMessage |}, c)
  end.

(** [Group.findByIdAndUpdate(req.params.id, req.body, { new: true })]:
    the paths of the body are set on the document with that [_id];
    validators do not run on this call. *)
Definition put_api_groups_id (id : N) (b : GroupBody)
    (c : collection Group) : response * collection Group :=
  match c !! id with
  | None => ({| status := 404; body := ErrorMessage |}, c)
  | Some group =>
      let group :=
        {| GroupDoc.name := default (GroupDoc.name group) (body_name b);
           GroupDoc.members := default (GroupDoc.members group) (body_members b);
           GroupDoc.userId := default (GroupDoc.userId group) (body_userId b) |} in
      ({| status := 200; body := OneGroup id group |}, <[id := group]> c)
  end.

(** [Group.findByIdAndDelete(req.params.id)] *)
Definition delete_api_groups_id (id : N) (c : collection Group)
    : response * collection Group :=
  match c !! id with
  | None => ({| status := 404; body := ErrorMessage |}, c)
  | Some _ => ({| status := 200; body := Message |}, delete id c)
  end.
End Routes.
End Legacy.


(** The documents a response carries. *)
Definition owners_in (p : payload) : list jsstring :=
  match p with
  | Groups gs => GroupDoc.userId <$> gs.*2
  | OneGroup _ g => [GroupDoc.userId g]
  | Matches ms => userId <$> ms.*2
  | OneMatch _ m => [userId m]
  | Stats _ | Message | ErrorMessage => []
  end.


Definition alice_group : Group :=
  {| GroupDoc.name := str "Monday"; GroupDoc.members := [];
     GroupDoc.userId := str "alice" |}.

Definition alice_store : collection Group := {[ 1%N := alice_group ]}.

Definition bob_body : GroupBody :=
  {| body_name := Some (str "Taken"); body_members := None;
     body_userId := Some (str "bob") |}.

(** ** The token of a request, and further notions used below *)

Definition space : N := 32%N.

(** [s.split(sep)] for a separator of one character. *)
Fixpoint split (sep : N) (s : jsstring) : list jsstring :=
  match s with
  | [] => [[]]
  | c :: s' =>
      if decide (c = sep) then [] :: split sep s'
      else match split sep s' with
           | part :: parts => (c :: part) :: parts
           | [] => [[c]]
           end
  end.

(** [authHeader && authHeader.split(' ')[1]], read as [if (!token)] reads
    it: [None] when the token is falsy, that is when the header is absent or
    empty, has no second part, or has an empty one. *)
Definition token_of (authHeader : option jsstring) : option jsstring :=
  match authHeader with
  | None | Some [] => None
  | Some h =>
      match split space h !! 1%nat with
      | Some (c :: t) => Some (c :: t)
      | _ => None
      end
  end.

Section Authentication.
(** [jwt.decode(token, { complete: true })] is the library's: what is used
    of it is the [sub] claim of the payload, or that it did not decode. *)
Variable decode_sub : jsstring → option jsstring.

(** The three ways out of [authenticateToken], from the header. *)
Definition authorize (authHeader : option jsstring) : authorization :=
  match token_of authHeader with
  | None => NoToken
  | Some token =>
      match decode_sub token with
      | None => NotDecodable
      | Some sub => Decoded sub
      end
  end.
End Authentication.

(** The sum of a sequence of integers. *)
Definition Z_sum (l : list Z) : Z := foldr Z.add 0 l.

(** Scores in the range where the model of numbers is the arithmetic of the
    code: non-negative integers whose sum over the whole list is below 2^53,
    so that every sum and difference the function forms is an integer a
    double holds exactly. *)
Definition safe_score (x : jsnum) : Prop :=
  match x with
  | Num z => 0 ≤ z
  | NaN => False
  end.

Definition score_value (x : jsnum) : Z :=
  match x with
  | Num z => z
  | NaN => 0
  end.

Definition score_total (ms : list Match) : Z :=
  Z_sum ((λ m, score_value (scoreA m) + score_value (scoreB m)) <$> ms).

Definition safe_scores (ms : list Match) : Prop :=
  Forall (λ m, safe_score (scoreA m) ∧ safe_score (scoreB m)) ms
  ∧ score_total ms < 2 ^ 53.

(** The goal sums of an entry are in range.  With safe scores every value
    the loop stores is an integer between 0 and the sum of all scores. *)
Definition in_range (T : Z) (s : TeamStat) : Prop :=
  ∃ f g, goalsFor s = Num f ∧ goalsAgainst s = Num g
         ∧ 0 ≤ f ≤ T ∧ 0 ≤ g ≤ T.

(** The scores of a match list, two per match. *)
Definition all_scores (ms : list Match) : list jsnum :=
  ms ≫= λ m, [scoreA m; scoreB m].

(** Two match records that differ at most in the order of the names of
    their rosters, and in the fields the aggregator does not read. *)
Definition same_up_to_order (m1 m2 : Match) : Prop :=
  teamA m1 ≡ₚ teamA m2 ∧ teamB m1 ≡ₚ teamB m2
  ∧ scoreA m1 = scoreA m2 ∧ scoreB m1 = scoreB m2.

(** The key an entry of the result is counted under. *)
Definition entry_key (e : RankedStat) : jsstring := join comma (team e).

(** ** The routes on a request as it arrives

    The handlers above take a [sub] that is a string and an [:id] that is a
    well-formed document id.  [jwt.decode] checks neither the signature nor
    the shape of the claims, so [req.user.sub] is whatever JSON value the
    token carries, and [req.params.id] is any text.  The definitions below
    take both as they come. *)

Inductive sub_claim (other : Type) : Type :=
  | StringSub (s : jsstring)
  | OtherSub (v : other).
Arguments StringSub {other} s.
Arguments OtherSub {other} v.

(** [req.body.name || group.name] and [req.body.members || group.members] *)
Definition updated_group (b : GroupBody) (group : Group) : Group :=
  {| GroupDoc.name :=
       match body_name b with
       | Some (ch :: n) => ch :: n
       | _ => GroupDoc.name group
       end;
     GroupDoc.members := default (GroupDoc.members group) (body_members b);
     GroupDoc.userId := GroupDoc.userId group |}.


Section Requests.
(** The values of a [sub] claim that are not strings: [undefined], numbers,
    objects and the rest. *)
Variable other : Type.

(** How the object-document mapper reads the filter [{ userId: v }] for
    such a value: the test it then applies to the stored [userId] (an object
    with operators is read as a query), or [None] when it throws. *)
Variable read_filter : other → option (jsstring → bool).

(** What it stores as [userId] for such a value, or [None] when the
    document does not validate. *)
Variable cast_userId : other → option jsstring.

Variable validate_group : Group → bool.
Variable validate_match : Match → bool.


(** The owners a [sub] claim selects: the one equal to a string claim; for
    another value, those that pass the filter it is read as. *)
Definition selects (sub : sub_claim other) (u : jsstring) : Prop :=
  match sub with
  | StringSub s => u = s
  | OtherSub v => ∃ test, read_filter v = Some test ∧ test u = true
  end.

(** The claim is a value the mapper cannot read as a filter. *)
Definition unreadable (sub : sub_claim other) : Prop :=
  ∃ v, sub = OtherSub v ∧ read_filter v = None.



(** [id] is [None] for an [:id] that is no document id: [findOne] then
    throws a CastError, which the [catch] of this route answers with 400. *)
Definition put_api_groups_id_on (id : option N) (b : GroupBody)
    (sub : sub_claim other) (c : collection Group)
    : response * collection Group :=
  match id, sub with
  | None, _ => ({| status := 400; body := ErrorMessage |}, c)
  | Some id, StringSub s => put_api_groups_id validate_group id b s c
  | Some id, OtherSub v =>
      match read_filter v with
      | None => ({| status := 400; body := ErrorMessage |}, c)
      | Some test =>
          match c !! id with
          | Some group =>
              if test (GroupDoc.userId group) then
                if validate_group (updated_group b group)
                then ({| status := 200;
                         body := OneGroup id (updated_group b group) |},
                      <[id := updated_group b group]> c)
                else ({| status := 400; body := ErrorMessage |}, c)
              else ({| status := 404; body := ErrorMessage |}, c)
          | None => ({| status := 404; body := ErrorMessage |}, c)
          end
      end
  end.

(** The [catch] of this route answers with 500. *)
Definition delete_api_groups_id_on (id : option N) (sub : sub_claim other)
    (c : collection Group) : response * collection Group :=
  match id, sub with
  | None, _ => ({| status := 500; body := ErrorMessage |}, c)
  | Some id, StringSub s => delete_api_groups_id id s c
  | Some id, OtherSub v =>
      match read_filter v with
      | None => ({| status := 500; body := ErrorMessage |}, c)
      | Some test =>
          match c !! id with
          | Some group =>
              if test (GroupDoc.userId group)
              then ({| status := 200; body := Message |}, delete id c)
              else ({| status := 404; body := ErrorMessage |}, c)
          | None => ({| status := 404; body := ErrorMessage |}, c)
          end
      end
  end.



End Requests.

(** Further sample inputs. *)
Definition alice_first : list Match :=
  [ mkMatch ["Alice"; "Bob"]%string ["Cara"]%string (Num 1) (Num 0) ].

Definition bob_match : Match :=
  mkMatch ["Bob"; "Alice"]%string ["Cara"]%string (Num 1) (Num 0).

Definition mirror_match : Match :=
  mkMatch ["Bob"; "Alice"]%string ["Alice"; "Bob"]%string (Num 2) (Num 1).

Definition joined_name_match : Match :=
  mkMatch ["Bob"; "Alice"]%string ["Alice,Bob"]%string (Num 2) (Num 1).



Definition owner_only_body (u : jsstring) : GroupBody :=
  {| body_name := None; body_members := None; body_userId := Some u |}.

(** * Properties *)

(** ** Strings and numbers *)

Lemma str_compare_refl (s : jsstring) : str_compare s s = Eq.
Proof.
  induction s as [|c s IH]; simpl; [done|].
  by rewrite N.compare_refl.
Qed.

Lemma str_compare_eq (s t : jsstring) : str_compare s t = Eq → s = t.
Proof.
  revert t. induction s as [|c s IH]; intros [|d t]; simpl; try done.
  destruct (N.compare_spec c d) as [->| |]; try done.
  intros H. f_equal. by apply IH.
Qed.

Lemma str_compare_antisym (s t : jsstring) :
  str_compare t s = CompOpp (str_compare s t).
Proof.
  revert t. induction s as [|c s IH]; intros [|d t]; simpl; try done.
  rewrite (N.compare_antisym c d).
  destruct (N.compare c d); simpl; auto.
Qed.

Lemma str_compare_lt_trans (s t u : jsstring) :
  str_compare s t = Lt → str_compare t u = Lt → str_compare s u = Lt.
Proof.
  revert t u. induction s as [|c s IH]; intros [|d t] [|e u]; simpl; try done.
  destruct (N.compare_spec c d) as [->|Hcd|Hcd]; try done.
  - destruct (N.compare_spec d e) as [->|Hde|Hde]; try done. apply IH.
  - destruct (N.compare_spec d e) as [->|Hde|Hde]; try done.
    + intros _ _. by apply N.compare_lt_iff in Hcd as ->.
    + intros _ _. assert (c < e)%N as Hce by lia.
      by apply N.compare_lt_iff in Hce as ->.
Qed.

Global Instance str_le_total : Total str_le.
Proof.
  intros s t. unfold str_le. rewrite (str_compare_antisym s t).
  destruct (str_compare s t); simpl; auto.
Qed.

Global Instance str_le_antisym : AntiSymm (=) str_le.
Proof.
  intros s t. unfold str_le. rewrite (str_compare_antisym s t).
  destruct (str_compare s t) eqn:E; simpl; try done.
  intros _ _. by apply str_compare_eq.
Qed.

Global Instance str_le_trans : Transitive str_le.
Proof.
  intros s t u. unfold str_le.
  destruct (str_compare s t) eqn:Est; try done; intros _.
  - by apply str_compare_eq in Est as ->.
  - destruct (str_compare t u) eqn:Etu; try done; intros _.
    + apply str_compare_eq in Etu as <-. by rewrite Est.
    + by rewrite (str_compare_lt_trans s t u).
Qed.

Lemma default_compare_le (x y : jsstring) :
  default_compare x y ≤ 0 ↔ str_le x y.
Proof.
  unfold default_compare, str_le. destruct (str_compare x y); split; try done; lia.
Qed.

Lemma js_add_assoc (x y z : jsnum) :
  js_add x (js_add y z) = js_add (js_add x y) z.
Proof. destruct x, y, z; simpl; try done. f_equal. lia. Qed.

Lemma js_add_comm (x y : jsnum) : js_add x y = js_add y x.
Proof. destruct x, y; simpl; try done. f_equal. lia. Qed.

Lemma js_add_NaN_l (x : jsnum) : js_add NaN x = NaN.
Proof. done. Qed.

Lemma js_add_NaN_r (x : jsnum) : js_add x NaN = NaN.
Proof. by destruct x. Qed.

(** ** Array.prototype.sort *)

Section ArraySortFacts.
Context {A : Type} (comparefn : A → A → Z).
#[local] Abbreviation before := (before comparefn).

Lemma sort_insert_Permutation (x : A) (l : list A) :
  sort_insert comparefn x l ≡ₚ x :: l.
Proof.
  induction l as [|y l IH]; simpl; [done|].
  case_bool_decide; [done|].
  rewrite IH. apply Permutation_swap.
Qed.

Lemma array_sort_Permutation (l : list A) : array_sort comparefn l ≡ₚ l.
Proof.
  induction l as [|x l IH]; simpl; [done|].
  by rewrite sort_insert_Permutation, IH.
Qed.

Lemma array_sort_elem_of (x : A) (l : list A) :
  x ∈ array_sort comparefn l ↔ x ∈ l.
Proof. by rewrite array_sort_Permutation. Qed.

Lemma array_sort_length (l : list A) :
  length (array_sort comparefn l) = length l.
Proof. by rewrite array_sort_Permutation. Qed.

Lemma sort_insert_HdRel (x : A) (l : list A) :
  HdRel before x l → sort_insert comparefn x l = x :: l.
Proof.
  destruct 1 as [|y l Hxy]; simpl; [done|].
  by rewrite bool_decide_eq_true_2.
Qed.

(** A sorted array is left as it is. *)
Lemma array_sort_Sorted_id (l : list A) :
  Sorted before l → array_sort comparefn l = l.
Proof.
  induction 1 as [|x l Hl IH Hx]; simpl; [done|].
  rewrite IH. by apply sort_insert_HdRel.
Qed.

Section Consistent.
(** The comparator decides a total preorder. *)
Hypothesis before_total : ∀ x y, before x y ∨ before y x.

Lemma sort_insert_Sorted (x : A) (l : list A) :
  Sorted before l → Sorted before (sort_insert comparefn x l).
Proof.
  induction 1 as [|y l Hl IH Hy]; simpl.
  - by repeat constructor.
  - case_bool_decide as Hxy.
    + by repeat constructor.
    + constructor; [done|].
      assert (before y x) as Hyx by (destruct (before_total x y); done).
      destruct Hy as [|z l Hyz]; simpl.
      * by constructor.
      * case_bool_decide; by constructor.
Qed.

Lemma array_sort_Sorted (l : list A) : Sorted before (array_sort comparefn l).
Proof.
  induction l as [|x l IH]; simpl; [constructor|].
  by apply sort_insert_Sorted.
Qed.

Lemma array_sort_idemp (l : list A) :
  array_sort comparefn (array_sort comparefn l) = array_sort comparefn l.
Proof. apply array_sort_Sorted_id, array_sort_Sorted. Qed.
End Consistent.
End ArraySortFacts.

Lemma before_default_compare (x y : jsstring) :
  before default_compare x y ↔ str_le x y.
Proof. apply default_compare_le. Qed.

Lemma Sorted_iff {A} (R1 R2 : relation A) (l : list A) :
  (∀ x y, R1 x y → R2 x y) → Sorted R1 l → Sorted R2 l.
Proof.
  intros HR. induction 1 as [|x l Hl IH Hx]; constructor; [done|].
  destruct Hx; constructor; auto.
Qed.

Lemma sort_strings_Sorted (l : list jsstring) : Sorted str_le (sort_strings l).
Proof.
  apply (Sorted_iff (before default_compare)).
  - intros x y. apply before_default_compare.
  - apply array_sort_Sorted. intros x y.
    rewrite !before_default_compare. apply total, _.
Qed.

Lemma sort_strings_Permutation (l : list jsstring) : sort_strings l ≡ₚ l.
Proof. apply array_sort_Permutation. Qed.

(** Sorting does not depend on the order the names were stored in. *)
Lemma sort_strings_perm (l1 l2 : list jsstring) :
  l1 ≡ₚ l2 → sort_strings l1 = sort_strings l2.
Proof.
  intros H. apply (Sorted_unique str_le); try apply sort_strings_Sorted.
  by rewrite !sort_strings_Permutation.
Qed.

Lemma sort_strings_idemp (l : list jsstring) :
  sort_strings (sort_strings l) = sort_strings l.
Proof. apply sort_strings_perm, sort_strings_Permutation. Qed.

Lemma sort_strings_sorted_id (l : list jsstring) :
  Sorted str_le l → sort_strings l = l.
Proof.
  intros H. apply array_sort_Sorted_id.
  revert H. apply Sorted_iff. intros x y. by rewrite before_default_compare.
Qed.

Lemma teamKey_perm (r1 r2 : list jsstring) :
  r1 ≡ₚ r2 → teamKey r1 = teamKey r2.
Proof. intros H. unfold teamKey. by rewrite (sort_strings_perm r1 r2). Qed.

Lemma teamKey_sorted (r : list jsstring) : teamKey (sort_strings r) = teamKey r.
Proof. unfold teamKey. by rewrite sort_strings_idemp. Qed.

(** ** Objects *)

Section ObjectFacts.
Context {V : Type}.
Implicit Types (o : object V) (k : jsstring) (v : V) (f : V → V).

Lemma own_None o k : own o k = None ↔ k ∉ o.*1.
Proof.
  induction o as [|[k' v'] o IH]; simpl.
  - split; [intros _; apply not_elem_of_nil|done].
  - rewrite not_elem_of_cons. case_decide as E.
    + split; [done|]. intros [Hk _]. by destruct Hk.
    + rewrite IH. split; [|tauto]. intros Hk. split; [congruence|done].
Qed.

Lemma own_Some_elem_of o k v : own o k = Some v → (k, v) ∈ o.
Proof.
  induction o as [|[k' v'] o IH]; simpl; [done|].
  case_decide as Hk.
  - intros [= ->]. subst. apply elem_of_cons; auto.
  - intros H. apply elem_of_cons; auto.
Qed.

Lemma own_is_Some o k : is_Some (own o k) ↔ k ∈ o.*1.
Proof.
  rewrite <-not_eq_None_Some, own_None.
  destruct (decide (k ∈ o.*1)); naive_solver.
Qed.

Lemma elem_of_own o k v : NoDup o.*1 → (k, v) ∈ o → own o k = Some v.
Proof.
  induction o as [|[k' v'] o IH]; simpl.
  - intros _ H. by apply elem_of_nil in H.
  - rewrite NoDup_cons. intros [Hk' Ho] [[= -> ->]|H]%elem_of_cons.
    + by rewrite decide_True.
    + rewrite decide_False; [by apply IH|].
      intros ->. apply Hk'. apply list_elem_of_fmap. by exists (k, v).
Qed.

Lemma put_new o k v : own o k = None → put k v o = o ++ [(k, v)].
Proof.
  induction o as [|[k' v'] o IH]; simpl; [done|].
  case_decide; [done|]. intros Ho. by rewrite IH.
Qed.

Lemma own_app o1 o2 k :
  own (o1 ++ o2) k = match own o1 k with Some v => Some v | None => own o2 k end.
Proof.
  induction o1 as [|[k' v'] o1 IH]; simpl; [done|]. by case_decide.
Qed.

Lemma own_put o k k' v :
  own (put k v o) k' = if decide (k = k') then Some v else own o k'.
Proof.
  induction o as [|[k0 v0] o IH]; simpl.
  - done.
  - destruct (decide (k0 = k)) as [->|Hne]; simpl.
    + destruct (decide (k = k')); done.
    + rewrite IH. destruct (decide (k0 = k')) as [->|]; [|done].
      by rewrite decide_False.
Qed.

Lemma at_key_eq k f v : at_key k f (k, v) = (k, f v).
Proof. unfold at_key. cbn [fst snd]. by rewrite decide_True. Qed.

Lemma at_key_ne k k' f v : k' ≠ k → at_key k f (k', v) = (k', v).
Proof. intros H. unfold at_key. cbn [fst snd]. by rewrite decide_False. Qed.

Lemma at_key_fst k f (p : jsstring * V) : (at_key k f p).1 = p.1.
Proof. unfold at_key. by case_decide. Qed.

Lemma modify_keys o k f : (modify k f o).*1 = o.*1.
Proof.
  unfold modify. rewrite <-list_fmap_compose. apply list_fmap_ext.
  intros i p _. apply at_key_fst.
Qed.

Lemma modify_cons o k f (p : jsstring * V) :
  modify k f (p :: o) = at_key k f p :: modify k f o.
Proof. done. Qed.

Lemma own_modify o k k' f :
  own (modify k f o) k' = if decide (k = k') then f <$> own o k' else own o k'.
Proof.
  induction o as [|[k0 v0] o IH]; [simpl; by case_decide|].
  rewrite modify_cons.
  destruct (decide (k0 = k)) as [->|Hne].
  - rewrite at_key_eq. cbn [own].
    destruct (decide (k = k')) as [->|Hne']; [done|]. exact IH.
  - rewrite at_key_ne by done. cbn [own].
    destruct (decide (k0 = k')) as [->|Hne'].
    + by rewrite decide_False.
    + exact IH.
Qed.

Lemma modify_not_own o k f : own o k = None → modify k f o = o.
Proof.
  induction o as [|[k' v'] o IH]; [done|]. cbn [own].
  case_decide as E; [done|]. intros Ho.
  rewrite modify_cons, at_key_ne by done. by rewrite IH.
Qed.

Lemma Object_values_Permutation o : Object_values o ≡ₚ o.*2.
Proof.
  unfold Object_values. rewrite array_sort_Permutation.
  induction o as [|[k v] o IH]; [done|].
  rewrite filter_cons. cbn [omap list_omap fst snd].
  destruct (array_index k) as [i|] eqn:E.
  - rewrite decide_False by done. cbn. by rewrite IH.
  - rewrite decide_True by done. cbn.
    rewrite <-Permutation_middle. by rewrite IH.
Qed.
End ObjectFacts.

(** ** The loop body *)

Lemma get_ensure_defined k r (ts : object TeamStat) :
  get (ensure k r ts) k ≠ Undefined.
Proof.
  unfold ensure. destruct (get ts k) eqn:E; simpl; try by rewrite E.
  unfold get. rewrite own_put. by rewrite decide_True.
Qed.

Lemma get_ensure_mono k k' r (ts : object TeamStat) :
  get ts k ≠ Undefined → get (ensure k' r ts) k ≠ Undefined.
Proof.
  unfold ensure. destruct (falsy (get ts k')); [|done].
  unfold get. rewrite own_put. case_decide; [done|]. done.
Qed.

Lemma get_modify_defined k k' f (ts : object TeamStat) :
  get ts k ≠ Undefined → get (modify k' f ts) k ≠ Undefined.
Proof.
  unfold get. rewrite own_modify.
  case_decide; destruct (own ts k); simpl; done.
Qed.

Lemma update_defined k f (ts : object TeamStat) :
  get ts k ≠ Undefined → update k f ts = Some (modify k f ts).
Proof.
  unfold update, get. destruct (own ts k) eqn:E; [done|].
  destruct (inherited k); [|done]. intros _. by rewrite modify_not_own.
Qed.

Lemma modify_sides ka kb (a b : jsnum) (fa fb : TeamStat → TeamStat)
    (ts : object TeamStat) :
  (∀ x y s, fa (add_goalsAgainst x (add_goalsFor y (inc_matches s)))
            = add_goalsAgainst x (add_goalsFor y (inc_matches (fa s)))) →
  modify kb fb (modify ka fa
    (modify kb (add_goalsAgainst a) (modify kb (add_goalsFor b)
      (modify ka (add_goalsAgainst b) (modify ka (add_goalsFor a)
        (modify kb inc_matches (modify ka inc_matches ts)))))))
  = modify kb (λ s, fb (add_goalsAgainst a (add_goalsFor b (inc_matches s))))
      (modify ka (λ s, fa (add_goalsAgainst b (add_goalsFor a (inc_matches s)))) ts).
Proof.
  intros Hcomm. induction ts as [|[k s] ts IH]; [reflexivity|].
  rewrite !modify_cons. f_equal; [|exact IH]. clear IH.
  destruct (decide (k = ka)) as [Ha|Ha], (decide (k = kb)) as [Hb|Hb];
    subst; repeat (rewrite at_key_eq || rewrite at_key_ne by done);
    try reflexivity.
  f_equal. f_equal. by rewrite <-Hcomm.
Qed.

(** The loop body never throws, and this is what it leaves. *)
Lemma forEach_body_eq (ts : object TeamStat) (m : Match) :
  forEach_body ts m = Some (body_result ts m, sorted_match m).
Proof.
  unfold forEach_body, body_result. cbn [teamA teamB scoreA scoreB date userId].
  fold (teamKey (teamA m)) (teamKey (teamB m)).
  fold (ensure (teamKey (teamA m)) (sort_strings (teamA m)) ts).
  set (t0 := ensure (teamKey (teamA m)) (sort_strings (teamA m)) ts).
  fold (ensure (teamKey (teamB m)) (sort_strings (teamB m)) t0).
  set (t1 := ensure (teamKey (teamB m)) (sort_strings (teamB m)) t0).
  set (ka := teamKey (teamA m)). set (kb := teamKey (teamB m)).
  assert (get t1 ka ≠ Undefined) as Ha
    by apply get_ensure_mono, get_ensure_defined.
  assert (get t1 kb ≠ Undefined) as Hb by apply get_ensure_defined.
  do 6 (rewrite update_defined by (repeat apply get_modify_defined; done);
        cbn [mbind option_bind]).
  fold (sorted_match m). unfold sideA, sideB.
  destruct (js_gt (scoreA m) (scoreB m)); [|destruct (js_lt (scoreA m) (scoreB m))];
    do 2 (rewrite update_defined by (repeat apply get_modify_defined; done);
          cbn [mbind option_bind]);
    by rewrite modify_sides.
Qed.

Lemma forEach_eq (ts : object TeamStat) (ms : list Match) :
  forEach ts ms = Some (foldl body_result ts ms, sorted_match <$> ms).
Proof.
  revert ts. induction ms as [|m ms IH]; intros ts; [done|].
  cbn [forEach]. rewrite forEach_body_eq. cbn [mbind option_bind].
  rewrite IH. done.
Qed.

(** The function returns for every list of matches. *)
Lemma calculateTeamStats_eq (ms : list Match) :
  calculateTeamStats ms
  = Some (array_sort by_rank (rank <$> Object_values (teamStats_of ms)),
          sorted_match <$> ms).
Proof. unfold calculateTeamStats. by rewrite forEach_eq. Qed.

Lemma teamStats_of_snoc (ms : list Match) (m : Match) :
  teamStats_of (ms ++ [m]) = body_result (teamStats_of ms) m.
Proof. unfold teamStats_of. by rewrite foldl_app. Qed.

Lemma rosters_snoc (ms : list Match) (m : Match) :
  rosters (ms ++ [m]) = rosters ms ++ [teamA m; teamB m].
Proof. unfold rosters. by rewrite bind_app. Qed.

Lemma keys_of_snoc (ms : list Match) (m : Match) :
  keys_of (ms ++ [m]) = keys_of ms ++ [teamKey (teamA m); teamKey (teamB m)].
Proof. unfold keys_of. by rewrite rosters_snoc, fmap_app. Qed.

(** The entries of the result are the ranked accumulators, reordered. *)
Lemma ranked_Permutation (ms : list Match) :
  array_sort by_rank (rank <$> Object_values (teamStats_of ms))
  ≡ₚ rank <$> (teamStats_of ms).*2.
Proof. by rewrite array_sort_Permutation, Object_values_Permutation. Qed.

(** ** The accumulator, key by key *)

Lemma own_ensure k k' r (ts : object TeamStat) :
  inherited k = false →
  own (ensure k' r ts) k
  = if decide (k' = k) then Some (default (newStat r) (own ts k)) else own ts k.
Proof.
  intros Hk. unfold ensure, get.
  destruct (own ts k') as [s'|] eqn:E'; simpl.
  - case_decide; [|done]. subst. by rewrite E'.
  - destruct (inherited k') eqn:Hk'; simpl.
    + case_decide; [|done]. congruence.
    + rewrite own_put. case_decide; [|done]. subst. by rewrite E'.
Qed.

Lemma own_ensure_inherited k k' r (ts : object TeamStat) :
  inherited k = true → own ts k = None → own (ensure k' r ts) k = None.
Proof.
  intros Hk Ho. unfold ensure, get.
  destruct (own ts k') as [s'|] eqn:E'; simpl; [done|].
  destruct (inherited k') eqn:Hk'; simpl; [done|].
  rewrite own_put. case_decide; [congruence|done].
Qed.

Lemma own_body_result k (ts : object TeamStat) (m : Match) :
  inherited k = false →
  own (body_result ts m) k = key_step k m (own ts k).
Proof.
  intros Hk. unfold body_result, key_step.
  rewrite !own_modify, !own_ensure by done.
  repeat case_decide; done.
Qed.

Lemma own_body_result_inherited k (ts : object TeamStat) (m : Match) :
  inherited k = true → own ts k = None → own (body_result ts m) k = None.
Proof.
  intros Hk Ho. unfold body_result. rewrite !own_modify.
  rewrite (own_ensure_inherited k (teamKey (teamB m)));
    [|done|by apply own_ensure_inherited].
  repeat case_decide; done.
Qed.

(** No entry is ever made under an inherited name. *)
Lemma own_teamStats_of_inherited k (ms : list Match) :
  inherited k = true → own (teamStats_of ms) k = None.
Proof.
  intros Hk. induction ms as [|m ms IH] using rev_ind; [done|].
  rewrite teamStats_of_snoc. by apply own_body_result_inherited.
Qed.

Lemma key_step_is_Some k m o :
  is_Some (key_step k m o)
  ↔ is_Some o ∨ teamKey (teamA m) = k ∨ teamKey (teamB m) = k.
Proof.
  unfold key_step. rewrite <-!not_eq_None_Some.
  repeat case_decide; destruct o; simpl; naive_solver.
Qed.

(** The keys with an entry are the keys met that are not inherited names. *)
Lemma own_teamStats_of_is_Some k (ms : list Match) :
  is_Some (own (teamStats_of ms) k) ↔ k ∈ keys_of ms ∧ inherited k = false.
Proof.
  destruct (inherited k) eqn:Hk.
  - rewrite own_teamStats_of_inherited by done.
    split; [by intros [? ?]|by intros [_ ?]].
  - induction ms as [|m ms IH] using rev_ind.
    + simpl. split; [by intros [? ?]|]. intros [H _]. by apply elem_of_nil in H.
    + rewrite teamStats_of_snoc, own_body_result, key_step_is_Some by done.
      rewrite IH, keys_of_snoc, elem_of_app, !elem_of_cons, elem_of_nil.
      naive_solver.
Qed.

Lemma ensure_NoDup k r (ts : object TeamStat) :
  NoDup ts.*1 → NoDup (ensure k r ts).*1.
Proof.
  intros H. unfold ensure, get. destruct (own ts k) eqn:E; simpl; [done|].
  destruct (inherited k); simpl; [done|].
  rewrite put_new, fmap_app by done. simpl.
  apply NoDup_app. split; [done|]. split; [|apply NoDup_singleton].
  intros x Hx ->%list_elem_of_singleton. by apply own_None in E.
Qed.

Lemma teamStats_of_NoDup (ms : list Match) : NoDup (teamStats_of ms).*1.
Proof.
  induction ms as [|m ms IH] using rev_ind; [constructor|].
  rewrite teamStats_of_snoc. unfold body_result.
  rewrite !modify_keys. by do 2 apply ensure_NoDup.
Qed.

(** Every entry of the accumulator sits under a key that is not inherited,
    and the key finds it. *)
Lemma teamStats_of_entry k s (ms : list Match) :
  (k, s) ∈ teamStats_of ms ↔ own (teamStats_of ms) k = Some s.
Proof.
  split; [apply elem_of_own, teamStats_of_NoDup|apply own_Some_elem_of].
Qed.

(** A property of the fresh entry that every per-side update of the list
    keeps holds of every entry. *)
Lemma entries_ind (P : TeamStat → Prop) (ms : list Match) :
  (∀ r, P (newStat r)) →
  (∀ m s, m ∈ ms → P s → P (sideA m s) ∧ P (sideB m s)) →
  ∀ k s, own (teamStats_of ms) k = Some s → P s.
Proof.
  intros Hnew. induction ms as [|m ms IH] using rev_ind; intros Hside k s; [done|].
  destruct (inherited k) eqn:Hk.
  { by rewrite own_teamStats_of_inherited. }
  rewrite teamStats_of_snoc, own_body_result by done.
  assert (∀ s, own (teamStats_of ms) k = Some s → P s) as IH'.
  { intros s'. apply IH. intros m' s'' Hm'. apply Hside. set_solver. }
  assert (∀ s, P s → P (sideA m s) ∧ P (sideB m s)) as Hm.
  { intros s'. apply Hside. set_solver. }
  unfold key_step.
  destruct (own (teamStats_of ms) k) as [s0|]; simpl.
  - specialize (IH' s0 eq_refl).
    repeat case_decide; simpl; intros [= <-]; try done;
      repeat (first [apply Hm | done]).
  - repeat case_decide; simpl; intros [= <-]; try done;
      repeat (first [apply Hm | apply Hnew]).
Qed.

Lemma sides_numeric (m : Match) (s : TeamStat) :
  numeric m →
  is_num (goalsFor s) ∧ is_num (goalsAgainst s) →
  (is_num (goalsFor (sideA m s)) ∧ is_num (goalsAgainst (sideA m s)))
  ∧ (is_num (goalsFor (sideB m s)) ∧ is_num (goalsAgainst (sideB m s))).
Proof.
  intros [Ha Hb] [Hf Hg]. unfold sideA, sideB.
  destruct (scoreA m), (scoreB m), (goalsFor s) eqn:E1, (goalsAgainst s) eqn:E2;
    try done.
  repeat case_match; simpl; rewrite ?E1, ?E2; done.
Qed.

(** With numeric scores every goal sum is a number. *)
Lemma teamStats_of_numeric (ms : list Match) (k : jsstring) (s : TeamStat) :
  Forall numeric ms → own (teamStats_of ms) k = Some s →
  is_num (goalsFor s) ∧ is_num (goalsAgainst s).
Proof.
  intros Hms. apply (entries_ind (λ s, is_num (goalsFor s) ∧ is_num (goalsAgainst s))).
  - done.
  - intros m s' Hm. apply sides_numeric. by eapply Forall_forall in Hms.
Qed.

Lemma Sorted_adjacent {A} (R : relation A) (l : list A) i a b :
  Sorted R l → l !! i = Some a → l !! S i = Some b → R a b.
Proof.
  intros Hl. revert i. induction Hl as [|x l Hl IH Hx]; intros i; [done|].
  destruct i as [|i]; simpl.
  - intros [= ->] Hb. destruct Hx as [|y l' Hxy]; simpl in *; [done|].
    by injection Hb as ->.
  - apply IH.
Qed.

Lemma by_rank_total (x y : RankedStat) :
  before by_rank x y ∨ before by_rank y x.
Proof.
  unfold before, by_rank.
  repeat case_bool_decide; try lia.
  destruct (goalDifference x), (goalDifference y); simpl; lia.
Qed.

(** ** The scenarios of the specification *)

Example scenario_A : calculateTeamStats [] = Some ([], []).
Proof. reflexivity. Qed.

Example scenario_B :
  fst <$> calculateTeamStats
    [mkMatch ["Alice"; "Bob"]%string ["Cara"; "Dan"]%string (Num 3) (Num 1)]
  = Some [ {| stat := {| team := str <$> ["Alice"; "Bob"]%string;
                         wins := 1; losses := 0; draws := 0;
                         goalsFor := Num 3; goalsAgainst := Num 1;
                         matches := 1 |};
              points := 3; goalDifference := Num 2 |};
           {| stat := {| team := str <$> ["Cara"; "Dan"]%string;
                         wins := 0; losses := 1; draws := 0;
                         goalsFor := Num 1; goalsAgainst := Num 3;
                         matches := 1 |};
              points := 0; goalDifference := Num (-2) |} ].
Proof. vm_compute. reflexivity. Qed.

Example scenario_D :
  (λ e : RankedStat, (draws e, points e, goalDifference e))
    <$> default [] (fst <$> calculateTeamStats
          [mkMatch ["Alice"]%string ["Bob"]%string (Num 2) (Num 2)])
  = [(1, 1, Num 0); (1, 1, Num 0)].
Proof. vm_compute. reflexivity. Qed.

(** ** Derived fields and ordering *)

(** C3: for every match list, every entry that [calculateTeamStats] returns
    has [points = 3 * wins + draws] and
    [goalDifference = goalsFor - goalsAgainst]. *)
Theorem calculateTeamStats_derived_fields (ms : list Match) :
  ∃ out ms', calculateTeamStats ms = Some (out, ms') ∧
    Forall (λ e : RankedStat,
              points e = 3 * wins e + draws e
              ∧ goalDifference e = js_sub (goalsFor e) (goalsAgainst e)) out.
Proof.
  rewrite calculateTeamStats_eq. eexists _, _. split; [done|].
  apply Forall_forall. intros e He%array_sort_elem_of.
  apply list_elem_of_fmap in He as (s & -> & _). simpl. split; [lia|done].
Qed.

Lemma safe_scores_numeric (ms : list Match) :
  safe_scores ms → Forall numeric ms.
Proof.
  intros [H _]. eapply Forall_impl; [exact H|].
  intros m [Ha Hb]. split; [by destruct (scoreA m)|by destruct (scoreB m)].
Qed.

(** C4, as the code has it: for every list of matches whose scores are
    non-negative integers with a sum below 2^53, the sequence
    [calculateTeamStats] returns is sorted: of two adjacent entries the first
    has more points, or as many points and a goal difference at least as
    large. *)
Theorem calculateTeamStats_sorted (ms : list Match) :
  safe_scores ms →
  ∃ out ms', calculateTeamStats ms = Some (out, ms') ∧
    ∀ i a b, out !! i = Some a → out !! S i = Some b →
      points a > points b
      ∨ (points a = points b ∧ js_ge (goalDifference a) (goalDifference b) = true).
Proof.
  intros Hms%safe_scores_numeric.
  rewrite calculateTeamStats_eq. eexists _, _. split; [done|].
  intros i a b Ha Hb.
  assert (∀ e : RankedStat,
            e ∈ array_sort by_rank (rank <$> Object_values (teamStats_of ms)) →
            is_num (goalDifference e)) as Hnum.
  { intros e He. rewrite ranked_Permutation in He.
    apply list_elem_of_fmap in He as (s & -> & Hs).
    apply list_elem_of_fmap in Hs as ([k s'] & -> & Hs).
    apply teamStats_of_entry in Hs.
    destruct (teamStats_of_numeric ms k s' Hms Hs) as [Hf Hg]. simpl.
    by destruct (goalsFor s'), (goalsAgainst s'). }
  assert (is_num (goalDifference a)) as Hna
    by (by eapply Hnum, list_elem_of_lookup_2).
  assert (is_num (goalDifference b)) as Hnb
    by (by eapply Hnum, list_elem_of_lookup_2).
  pose proof (Sorted_adjacent _ _ i a b
                (array_sort_Sorted by_rank by_rank_total _) Ha Hb) as Hab.
  unfold before, by_rank in Hab.
  destruct (goalDifference a), (goalDifference b); try done. simpl in *.
  case_bool_decide; [left; lia|right].
  split; [lia|]. apply bool_decide_eq_true. lia.
Qed.

Lemma calculateTeamStats_sorted_witness :
  safe_scores two_matches ∧
  ∃ out ms', calculateTeamStats two_matches = Some (out, ms') ∧
    ∀ i a b, out !! i = Some a → out !! S i = Some b →
      points a > points b
      ∨ (points a = points b ∧ js_ge (goalDifference a) (goalDifference b) = true).
Proof.
  assert (safe_scores two_matches) as H.
  { split; [|reflexivity]. repeat constructor; simpl; lia. }
  split; [exact H|]. exact (calculateTeamStats_sorted two_matches H).
Defined.

(** C4 as stated fails: with an absent [scoreA] the two entries returned
    have 1 point each and [NaN] as goal difference, and [NaN >= NaN] is
    false. *)
Lemma calculateTeamStats_not_sorted_absent_score :
  ∃ out ms' a b, calculateTeamStats absent_score = Some (out, ms')
    ∧ out !! 0%nat = Some a ∧ out !! 1%nat = Some b
    ∧ points a = 1 ∧ points b = 1
    ∧ goalDifference a = NaN ∧ goalDifference b = NaN
    ∧ ¬ (points a > points b
         ∨ (points a = points b
            ∧ js_ge (goalDifference a) (goalDifference b) = true)).
Proof.
  rewrite calculateTeamStats_eq. eexists _, _, _, _. split; [done|].
  vm_compute. repeat split. intros [H|[_ H]]; discriminate H.
Qed.

(** ** The input after the call *)

(** C6, as the code has it: the call reorders the rosters of its input.
    After it, every match record holds its two rosters sorted (the same
    names, ascending by code units) and its other fields as they were; a
    record whose rosters were already sorted is unchanged. *)
Theorem calculateTeamStats_sorts_input (ms : list Match) :
  ∃ out ms', calculateTeamStats ms = Some (out, ms') ∧
    Forall2 (λ m m' : Match,
               teamA m' = sort_strings (teamA m) ∧ teamA m' ≡ₚ teamA m
               ∧ teamB m' = sort_strings (teamB m) ∧ teamB m' ≡ₚ teamB m
               ∧ scoreA m' = scoreA m ∧ scoreB m' = scoreB m
               ∧ date m' = date m ∧ userId m' = userId m
               ∧ (Sorted str_le (teamA m) → Sorted str_le (teamB m) → m' = m))
            ms ms'.
Proof.
  rewrite calculateTeamStats_eq. eexists _, _. split; [done|].
  apply Forall2_fmap_r, Forall_Forall2_diag, Forall_forall. intros m _.
  unfold sorted_match; simpl.
  repeat split; try done; try apply sort_strings_Permutation.
  intros Ha Hb. rewrite !sort_strings_sorted_id by done. by destruct m.
Qed.

(** C6 as stated fails: a roster stored as Bob, Alice is left as Alice, Bob. *)
Lemma calculateTeamStats_mutates_input :
  ∃ out ms', calculateTeamStats bob_first = Some (out, ms')
    ∧ teamA <$> bob_first = [str <$> ["Bob"; "Alice"]%string]
    ∧ teamA <$> ms' = [str <$> ["Alice"; "Bob"]%string]
    ∧ ms' ≠ bob_first.
Proof.
  rewrite calculateTeamStats_eq. eexists _, _. split; [done|].
  vm_compute. repeat split; discriminate.
Qed.

(** ** The team field *)

Lemma first_roster_app k (l1 l2 : list (list jsstring)) :
  first_roster k (l1 ++ l2)
  = match first_roster k l1 with
    | Some r => Some r
    | None => first_roster k l2
    end.
Proof. induction l1 as [|r l1 IH]; simpl; [done|]. by case_decide. Qed.

Lemma first_roster_Some k (rs : list (list jsstring)) r :
  first_roster k rs = Some r → teamKey r = k ∧ r ∈ rs.
Proof.
  induction rs as [|r' rs IH]; simpl; [done|]. case_decide.
  - intros [= ->]. split; [done|]. apply elem_of_cons; auto.
  - intros [? ?]%IH. split; [done|]. apply elem_of_cons; auto.
Qed.

Lemma first_roster_None k (rs : list (list jsstring)) :
  first_roster k rs = None ↔ k ∉ teamKey <$> rs.
Proof.
  induction rs as [|r' rs IH]; simpl.
  - split; [intros _; apply not_elem_of_nil|done].
  - rewrite not_elem_of_cons. case_decide as E.
    + split; [done|]. intros [Hk _]. by destruct Hk.
    + rewrite IH. split; [|tauto]. intros Hk. split; [congruence|done].
Qed.

Lemma team_sideA m s : team (sideA m s) = team s.
Proof. unfold sideA. by repeat case_match. Qed.

Lemma team_sideB m s : team (sideB m s) = team s.
Proof. unfold sideB. by repeat case_match. Qed.

(** The entry of a key shows the first roster met under that key, sorted. *)
Lemma team_of_entry (ms : list Match) k s :
  own (teamStats_of ms) k = Some s →
  ∃ r, first_roster k (rosters ms) = Some r ∧ team s = sort_strings r.
Proof.
  revert s. induction ms as [|m ms IH] using rev_ind; intros s; [done|].
  destruct (inherited k) eqn:Hk.
  { by rewrite own_teamStats_of_inherited. }
  rewrite teamStats_of_snoc, own_body_result, rosters_snoc, first_roster_app by done.
  unfold key_step. destruct (own (teamStats_of ms) k) as [s0|] eqn:E.
  - destruct (IH s0 eq_refl) as (r & -> & Hr).
    intros Hs. exists r. split; [done|]. rewrite <-Hr.
    repeat case_decide; simpl in Hs; injection Hs as <-;
      by rewrite ?team_sideB, ?team_sideA.
  - assert (first_roster k (rosters ms) = None) as ->.
    { apply first_roster_None. intros Hin.
      assert (is_Some (own (teamStats_of ms) k)) as [? ?]
        by (by apply own_teamStats_of_is_Some).
      congruence. }
    simpl. intros Hs.
    repeat case_decide; simpl in Hs; try done; injection Hs as <-;
      eexists; (split; [done|]); by rewrite ?team_sideB, ?team_sideA.
Qed.

Lemma join_sorted_first_roster k (rs : list (list jsstring)) r :
  first_roster k rs = Some r → join comma (sort_strings r) = k.
Proof. by intros [? _]%first_roster_Some. Qed.

(** C5, as the code has it: the [team] field of every entry returned is the
    sorted name sequence of the first roster met under the entry's key; the
    array was sorted in place before it was stored. *)
Theorem calculateTeamStats_team_sorted (ms : list Match) :
  ∃ out ms', calculateTeamStats ms = Some (out, ms') ∧
    Forall (λ e : RankedStat,
              ∃ r, first_roster (join comma (team e)) (rosters ms) = Some r
                   ∧ team e = sort_strings r) out.
Proof.
  rewrite calculateTeamStats_eq. eexists _, _. split; [done|].
  apply Forall_forall. intros e He. rewrite ranked_Permutation in He.
  apply list_elem_of_fmap in He as (s & -> & Hs).
  apply list_elem_of_fmap in Hs as ([k s'] & -> & Hs).
  apply teamStats_of_entry in Hs.
  destruct (team_of_entry ms k s' Hs) as (r & Hr & Ht). simpl.
  exists r. split; [|done].
  by rewrite Ht, (join_sorted_first_roster k _ r Hr).
Qed.

(** C5 as stated fails: the first record met for the key of Alice and Bob
    stores Bob, Alice, and the entry shows Alice, Bob. *)
Lemma calculateTeamStats_team_not_as_stored :
  ∃ out ms', calculateTeamStats bob_first = Some (out, ms')
    ∧ first_roster (str "Alice,Bob") (rosters bob_first)
      = Some (str <$> ["Bob"; "Alice"]%string)
    ∧ team <$> (stat <$> out)
      = [str <$> ["Alice"; "Bob"]%string; str <$> ["Cara"]%string]
    ∧ ¬ ∃ e : RankedStat, e ∈ out ∧ team e = str <$> ["Bob"; "Alice"]%string.
Proof.
  rewrite calculateTeamStats_eq. eexists _, _. split; [done|].
  vm_compute. repeat split.
  intros (e & He & Ht). 
  repeat (apply elem_of_cons in He as [->|He]; [discriminate Ht|]).
  by apply elem_of_nil in He.
Qed.

(** ** Scores that are not numbers *)

Lemma poisoned_sideA m s : poisoned s → poisoned (sideA m s).
Proof.
  unfold poisoned, sideA. intros [H|H];
    repeat case_match; simpl; rewrite H; auto.
Qed.

Lemma poisoned_sideB m s : poisoned s → poisoned (sideB m s).
Proof.
  unfold poisoned, sideB. intros [H|H];
    repeat case_match; simpl; rewrite H; auto.
Qed.

Lemma not_numeric_sides m s :
  ¬ numeric m → poisoned (sideA m s) ∧ poisoned (sideB m s).
Proof.
  unfold numeric, poisoned, sideA, sideB. intros Hm.
  destruct (scoreA m), (scoreB m); simpl in *; [tauto|..];
    split; repeat case_match; simpl; rewrite ?js_add_NaN_r; auto.
Qed.

Lemma poisoned_goalDifference s : poisoned s → goalDifference (rank s) = NaN.
Proof.
  unfold poisoned. simpl. intros [-> | ->]; [done|]. by destruct (goalsFor s).
Qed.

(** Once a match without a numeric score was counted for a key, the entry
    of the key stays poisoned. *)
Lemma poisoned_entry (ms : list Match) (m : Match) k :
  m ∈ ms → ¬ numeric m → inherited k = false →
  teamKey (teamA m) = k ∨ teamKey (teamB m) = k →
  ∃ s, own (teamStats_of ms) k = Some s ∧ poisoned s.
Proof.
  intros Hin Hm Hk Hside.
  induction ms as [|m' ms IH] using rev_ind; [by apply elem_of_nil in Hin|].
  rewrite teamStats_of_snoc, own_body_result by done.
  apply elem_of_app in Hin as [Hin|Hin%list_elem_of_singleton].
  - destruct (IH Hin) as (s & -> & Hs). unfold key_step.
    repeat case_decide; simpl; eexists; (split; [done|]);
      auto using poisoned_sideA, poisoned_sideB.
  - subst m'. destruct (not_numeric_sides m) with (s := newStat []) as [_ _].
    { done. }
    unfold key_step.
    destruct (own (teamStats_of ms) k) as [s0|]; simpl;
      destruct Hside as [Hside|Hside]; rewrite ?(decide_True _ _ Hside);
      repeat case_decide; simpl; eexists; (split; [done|]);
      first [ apply poisoned_sideB, not_numeric_sides; done
            | apply not_numeric_sides; done ].
Qed.

(** C7, as the code has it: the function does not validate scores and does
    not raise.  It returns for every match list, and when the list holds a
    match with an absent or NaN score, the entry of each of its two teams
    (under a key that is not an inherited name) has [NaN] as goal
    difference. *)
Theorem calculateTeamStats_NaN_scores (ms : list Match) (m : Match) :
  m ∈ ms → ¬ numeric m →
  ∃ out ms', calculateTeamStats ms = Some (out, ms') ∧
    ∀ r, r ∈ [teamA m; teamB m] → inherited (teamKey r) = false →
      ∃ e : RankedStat, e ∈ out ∧ join comma (team e) = teamKey r
                        ∧ poisoned e ∧ goalDifference e = NaN.
Proof.
  intros Hin Hm. rewrite calculateTeamStats_eq. eexists _, _. split; [done|].
  intros r Hr Hk.
  destruct (poisoned_entry ms m (teamKey r) Hin Hm Hk) as (s & Hs & Hp).
  { apply elem_of_cons in Hr as [->|Hr]; [by left|].
    apply list_elem_of_singleton in Hr as ->. by right. }
  exists (rank s). split; [|split; [|split]].
  - rewrite ranked_Permutation. apply list_elem_of_fmap. exists s. split; [done|].
    apply list_elem_of_fmap. exists (teamKey r, s). split; [done|].
    by apply teamStats_of_entry.
  - destruct (team_of_entry ms _ s Hs) as (r' & Hr' & Ht). simpl.
    rewrite Ht. by apply join_sorted_first_roster in Hr'.
  - done.
  - by apply poisoned_goalDifference.
Qed.

Lemma calculateTeamStats_NaN_scores_witness :
  mkMatch ["Alice"]%string ["Bob"]%string NaN (Num 1) ∈ absent_score
  ∧ ¬ numeric (mkMatch ["Alice"]%string ["Bob"]%string NaN (Num 1))
  ∧ ∃ out ms', calculateTeamStats absent_score = Some (out, ms') ∧
      ∀ r, r ∈ [teamA (mkMatch ["Alice"]%string ["Bob"]%string NaN (Num 1));
                teamB (mkMatch ["Alice"]%string ["Bob"]%string NaN (Num 1))] →
        inherited (teamKey r) = false →
        ∃ e : RankedStat, e ∈ out ∧ join comma (team e) = teamKey r
                          ∧ poisoned e ∧ goalDifference e = NaN.
Proof.
  assert (mkMatch ["Alice"]%string ["Bob"]%string NaN (Num 1) ∈ absent_score)
    as Hin by (apply elem_of_cons; left; reflexivity).
  assert (¬ numeric (mkMatch ["Alice"]%string ["Bob"]%string NaN (Num 1)))
    as Hm by (intros [H _]; exact H).
  split; [exact Hin|]. split; [exact Hm|].
  exact (calculateTeamStats_NaN_scores absent_score _ Hin Hm).
Defined.

(** C7 as stated fails: with an absent [scoreA] the call returns, and the
    entries it returns carry [NaN]. *)
Lemma calculateTeamStats_returns_NaN :
  ∃ out ms', calculateTeamStats absent_score = Some (out, ms')
    ∧ goalsFor <$> (stat <$> out) = [NaN; Num 1]
    ∧ goalsAgainst <$> (stat <$> out) = [Num 1; NaN]
    ∧ goalDifference <$> out = [NaN; NaN].
Proof.
  rewrite calculateTeamStats_eq. eexists _, _. split; [done|].
  vm_compute. by repeat split.
Qed.

(** ** The per-match update rule *)

(** On numeric scores the assignments of the loop are the rule of the
    specification, for the side of [teamA] and for the side of [teamB]. *)
Lemma sideA_rule (m : Match) (s : TeamStat) :
  numeric m → sideA m s = rule_side (scoreA m) (scoreB m) s.
Proof.
  unfold numeric, sideA, rule_side. intros [Ha Hb].
  destruct (scoreA m) as [a|], (scoreB m) as [b|]; try done. simpl.
  destruct s as [t w l d gf ga n]; simpl.
  repeat case_bool_decide; repeat case_decide; simplify_eq; try lia;
    unfold inc_wins, inc_losses, inc_draws; simpl; rewrite ?Z.add_0_r;
    try done.
  all: match goal with H : Num _ ≠ Num _ |- _ => destruct H; f_equal; lia end.
Qed.

Lemma sideB_rule (m : Match) (s : TeamStat) :
  numeric m → sideB m s = rule_side (scoreB m) (scoreA m) s.
Proof.
  unfold numeric, sideB, rule_side. intros [Ha Hb].
  destruct (scoreA m) as [a|], (scoreB m) as [b|]; try done. simpl.
  destruct s as [t w l d gf ga n]; simpl.
  repeat case_bool_decide; repeat case_decide; simplify_eq; try lia;
    unfold inc_wins, inc_losses, inc_draws; simpl; rewrite ?Z.add_0_r;
    try done.
  all: match goal with H : Num _ ≠ Num _ |- _ => destruct H; f_equal; lia end.
Qed.

Lemma own_ensure_ne k k' r (ts : object TeamStat) :
  k' ≠ k → own (ensure k' r ts) k = own ts k.
Proof.
  intros Hne. unfold ensure. destruct (falsy _); [|done].
  rewrite own_put. by rewrite decide_False.
Qed.

(** The loop body touches no entry but those of the two keys of the match. *)
Lemma body_result_other k (ts : object TeamStat) (m : Match) :
  k ≠ teamKey (teamA m) → k ≠ teamKey (teamB m) →
  own (body_result ts m) k = own ts k.
Proof.
  intros Ha Hb. unfold body_result.
  rewrite !own_modify, !own_ensure_ne by done.
  by rewrite !decide_False by done.
Qed.

(** With two different keys, each entry takes the update of its side once,
    starting from a fresh entry when the key is new. *)
Lemma body_result_two_keys (ts : object TeamStat) (m : Match) :
  teamKey (teamA m) ≠ teamKey (teamB m) →
  (inherited (teamKey (teamA m)) = false →
   own (body_result ts m) (teamKey (teamA m))
   = Some (sideA m (default (newStat (sort_strings (teamA m)))
                            (own ts (teamKey (teamA m))))))
  ∧ (inherited (teamKey (teamB m)) = false →
     own (body_result ts m) (teamKey (teamB m))
     = Some (sideB m (default (newStat (sort_strings (teamB m)))
                              (own ts (teamKey (teamB m)))))).
Proof.
  intros Hne. assert (teamKey (teamB m) ≠ teamKey (teamA m)) as Hne' by done.
  split; intros Hk; rewrite own_body_result by done; unfold key_step.
  - rewrite !(decide_True _ _ (eq_refl (teamKey (teamA m)))).
    by rewrite !(decide_False _ _ Hne').
  - rewrite !(decide_True _ _ (eq_refl (teamKey (teamB m)))).
    rewrite !(decide_False _ _ Hne). by destruct (own ts _).
Qed.

(** The per-match rule of the specification, on a match with numeric scores
    and two different keys that are not inherited names: the entry of each
    side takes the rule once, and no other entry changes. *)
Lemma body_result_rule (ts : object TeamStat) (m : Match) :
  numeric m →
  teamKey (teamA m) ≠ teamKey (teamB m) →
  inherited (teamKey (teamA m)) = false →
  inherited (teamKey (teamB m)) = false →
  own (body_result ts m) (teamKey (teamA m))
  = Some (rule_side (scoreA m) (scoreB m)
            (default (newStat (sort_strings (teamA m)))
                     (own ts (teamKey (teamA m)))))
  ∧ own (body_result ts m) (teamKey (teamB m))
    = Some (rule_side (scoreB m) (scoreA m)
              (default (newStat (sort_strings (teamB m)))
                       (own ts (teamKey (teamB m)))))
  ∧ ∀ k, k ≠ teamKey (teamA m) → k ≠ teamKey (teamB m) →
         own (body_result ts m) k = own ts k.
Proof.
  intros Hm Hne Ha Hb.
  destruct (body_result_two_keys ts m Hne) as [HA HB].
  rewrite (HA Ha), (HB Hb), sideA_rule, sideB_rule by done.
  repeat split. intros k. apply body_result_other.
Qed.

(** With one key for both rosters, the one entry takes both updates. *)
Lemma body_result_same_key (ts : object TeamStat) (m : Match) :
  teamKey (teamA m) = teamKey (teamB m) →
  inherited (teamKey (teamA m)) = false →
  own (body_result ts m) (teamKey (teamA m))
  = Some (sideB m (sideA m (default (newStat (sort_strings (teamA m)))
                                    (own ts (teamKey (teamA m)))))).
Proof.
  intros He Hk. rewrite own_body_result by done. unfold key_step.
  rewrite <-He. rewrite !decide_True by done. by destruct (own ts _).
Qed.

(** What the two updates add up to on the shared entry. *)
Lemma rule_both_sides (m : Match) (s : TeamStat) :
  numeric m →
  let s' := sideB m (sideA m s) in
  matches s' = matches s + 2
  ∧ goalsFor s' = js_add (js_add (goalsFor s) (scoreA m)) (scoreB m)
  ∧ goalsAgainst s' = js_add (js_add (goalsAgainst s) (scoreB m)) (scoreA m)
  ∧ (scoreA m ≠ scoreB m →
     wins s' = wins s + 1 ∧ losses s' = losses s + 1 ∧ draws s' = draws s)
  ∧ (scoreA m = scoreB m →
     wins s' = wins s ∧ losses s' = losses s ∧ draws s' = draws s + 2).
Proof.
  intros Hm. simpl. rewrite sideB_rule, sideA_rule by done.
  destruct Hm as [Ha Hb]. unfold rule_side.
  destruct (scoreA m) as [a|], (scoreB m) as [b|]; try done. simpl.
  repeat split; try lia.
  all: match goal with
       | H : Num _ ≠ Num _ |- _ => assert (a ≠ b) by congruence
       | H : Num _ = Num _ |- _ => injection H as ->
       end.
  all: repeat case_bool_decide; repeat case_decide; simplify_eq; try lia; done.
Qed.

(** ** One entry per counted key *)

Lemma elem_of_counted_keys k (ms : list Match) :
  k ∈ counted_keys ms ↔ k ∈ keys_of ms ∧ inherited k = false.
Proof.
  unfold counted_keys. rewrite elem_of_remove_dups, list_elem_of_filter. tauto.
Qed.

(** The keys of the accumulator are the keys met that are not inherited
    names, each once. *)
Lemma teamStats_of_keys (ms : list Match) :
  (teamStats_of ms).*1 ≡ₚ counted_keys ms.
Proof.
  apply NoDup_Permutation.
  - apply teamStats_of_NoDup.
  - apply NoDup_remove_dups.
  - intros k. by rewrite <-own_is_Some, own_teamStats_of_is_Some, elem_of_counted_keys.
Qed.

(** The number of entries returned is the number of distinct keys met that
    are not inherited names. *)
Lemma calculateTeamStats_length (ms : list Match) :
  ∃ out ms', calculateTeamStats ms = Some (out, ms')
    ∧ length out = length (counted_keys ms).
Proof.
  rewrite calculateTeamStats_eq. eexists _, _. split; [done|].
  rewrite ranked_Permutation, length_fmap.
  rewrite <-(teamStats_of_keys ms). by rewrite !length_fmap.
Qed.

(** When no key met is an inherited name, that is the number of distinct
    keys met. *)
Lemma calculateTeamStats_length_distinct (ms : list Match) :
  Forall (λ k, inherited k = false) (keys_of ms) →
  ∃ out ms', calculateTeamStats ms = Some (out, ms')
    ∧ length out = length (remove_dups (keys_of ms)).
Proof.
  intros Hk. destruct (calculateTeamStats_length ms) as (out & ms' & Hc & Hl).
  exists out, ms'. split; [done|]. rewrite Hl. unfold counted_keys.
  f_equal. f_equal. induction Hk as [|k l Hk _ IH]; [done|].
  by rewrite filter_cons_True, IH.
Qed.

(** Rosters with the same names in any order share their entry. *)
Lemma teamStats_of_permuted_rosters (ms : list Match) (r1 r2 : list jsstring) :
  r1 ≡ₚ r2 → own (teamStats_of ms) (teamKey r1) = own (teamStats_of ms) (teamKey r2).
Proof. intros H. by rewrite (teamKey_perm r1 r2). Qed.

Lemma matches_sideA m s : matches (sideA m s) = matches s + 1.
Proof. unfold sideA. by repeat case_match. Qed.

Lemma matches_sideB m s : matches (sideB m s) = matches s + 1.
Proof. unfold sideB. by repeat case_match. Qed.

(** An entry counts one match for each roster met under its key: every
    match is counted once for each of its two sides. *)
Lemma matches_of_entry (ms : list Match) k s :
  own (teamStats_of ms) k = Some s →
  matches s = Z.of_nat (length (filter (λ r, teamKey r = k) (rosters ms))).
Proof.
  revert s. induction ms as [|m ms IH] using rev_ind; intros s; [done|].
  destruct (inherited k) eqn:Hk.
  { by rewrite own_teamStats_of_inherited. }
  rewrite teamStats_of_snoc, own_body_result, rosters_snoc by done.
  rewrite filter_app, length_app, !filter_cons, filter_nil.
  unfold key_step. destruct (own (teamStats_of ms) k) as [s0|] eqn:E.
  - pose proof (IH s0 eq_refl) as IH0. clear IH.
    repeat case_decide; simpl; intros [= <-];
      rewrite ?matches_sideB, ?matches_sideA; simpl; lia.
  - assert (filter (λ r, teamKey r = k) (rosters ms) = []) as ->.
    { apply elem_of_nil_inv. intros r [Hkr Hr]%list_elem_of_filter.
      assert (is_Some (own (teamStats_of ms) k)) as [? ?]; [|congruence].
      apply own_teamStats_of_is_Some. split; [|done].
      apply list_elem_of_fmap. by exists r. }
    repeat case_decide; simpl; intros [= <-];
      rewrite ?matches_sideB, ?matches_sideA; simpl; lia.
Qed.

(** ** Goals for and goals against *)

Lemma js_add_0_r (x : jsnum) : js_add x (Num 0) = x.
Proof. destruct x; simpl; [|done]. f_equal. lia. Qed.

Lemma js_sum_app (l1 l2 : list jsnum) :
  js_sum (l1 ++ l2) = js_add (js_sum l1) (js_sum l2).
Proof.
  induction l1 as [|x l1 IH]; simpl.
  - by destruct (js_sum l2) eqn:E; simpl; rewrite ?E.
  - unfold js_sum in *. simpl. by rewrite IH, js_add_assoc.
Qed.

Lemma js_sum_Permutation (l1 l2 : list jsnum) :
  l1 ≡ₚ l2 → js_sum l1 = js_sum l2.
Proof.
  induction 1 as [|x l1 l2 _ IH|x y l|l1 l2 l3 _ IH1 _ IH2]; unfold js_sum in *; simpl.
  - done.
  - by rewrite IH.
  - by rewrite !js_add_assoc, (js_add_comm x y).
  - by rewrite IH1.
Qed.

Section Totals.
Context (field : TeamStat → jsnum).
#[local] Abbreviation total := (field_total field).

Lemma total_ensure k r (ts : object TeamStat) :
  field (newStat r) = Num 0 → total (ensure k r ts) = total ts.
Proof.
  intros Hnew. unfold ensure, get. destruct (own ts k) eqn:E; simpl; [done|].
  destruct (inherited k); simpl; [done|].
  rewrite put_new by done. unfold field_total.
  rewrite !fmap_app, js_sum_app. simpl. rewrite Hnew.
  unfold js_sum at 2. simpl. by rewrite js_add_0_r.
Qed.

Lemma total_modify k f x (ts : object TeamStat) :
  (∀ s, field (f s) = js_add (field s) x) →
  NoDup ts.*1 → is_Some (own ts k) →
  total (modify k f ts) = js_add (total ts) x.
Proof.
  intros Hf. induction ts as [|[k' s'] ts IH].
  - by intros _ [? ?].
  - rewrite fmap_cons, NoDup_cons. cbn [fst own]. intros [Hk' Hnd] Hown.
    rewrite modify_cons. unfold field_total in *.
    destruct (decide (k' = k)) as [->|Hne].
    + rewrite at_key_eq, modify_not_own by by apply own_None.
      rewrite !fmap_cons. cbn [snd]. unfold js_sum. cbn [foldr]. rewrite Hf.
      by rewrite <-!js_add_assoc, (js_add_comm x).
    + rewrite at_key_ne by done. rewrite !fmap_cons. cbn [snd].
      unfold js_sum in *. cbn [foldr]. rewrite IH by done.
      by rewrite js_add_assoc.
Qed.
End Totals.

Lemma body_result_totals (ts : object TeamStat) (m : Match) :
  NoDup ts.*1 →
  inherited (teamKey (teamA m)) = false →
  inherited (teamKey (teamB m)) = false →
  field_total goalsFor (body_result ts m)
  = js_add (js_add (field_total goalsFor ts) (scoreA m)) (scoreB m)
  ∧ field_total goalsAgainst (body_result ts m)
    = js_add (js_add (field_total goalsAgainst ts) (scoreB m)) (scoreA m).
Proof.
  intros Hnd Ha Hb. unfold body_result.
  set (t0 := ensure (teamKey (teamA m)) (sort_strings (teamA m)) ts).
  set (t1 := ensure (teamKey (teamB m)) (sort_strings (teamB m)) t0).
  assert (NoDup t1.*1) as Hnd1 by (by do 2 apply ensure_NoDup).
  assert (is_Some (own t1 (teamKey (teamA m)))) as HA.
  { unfold t1, t0. rewrite !own_ensure by done.
    repeat case_decide; try done; by eexists. }
  assert (is_Some (own t1 (teamKey (teamB m)))) as HB.
  { unfold t1. rewrite own_ensure by done.
    repeat case_decide; try done; by eexists. }
  assert (∀ fld, fld (newStat (sort_strings (teamA m))) = Num 0 →
                 fld (newStat (sort_strings (teamB m))) = Num 0 →
                 field_total fld t1 = field_total fld ts) as Ht1.
  { intros fld H1 H2. unfold t1, t0. by rewrite !total_ensure. }
  split.
  - rewrite (total_modify goalsFor _ _ (scoreB m)), (total_modify goalsFor _ _ (scoreA m)).
    + by rewrite Ht1.
    + intros s. unfold sideA. by repeat case_match.
    + done.
    + done.
    + intros s. unfold sideB. by repeat case_match.
    + by rewrite modify_keys.
    + rewrite own_modify. case_decide; [|done]. by apply fmap_is_Some.
  - rewrite (total_modify goalsAgainst _ _ (scoreA m)), (total_modify goalsAgainst _ _ (scoreB m)).
    + by rewrite Ht1.
    + intros s. unfold sideA. by repeat case_match.
    + done.
    + done.
    + intros s. unfold sideB. by repeat case_match.
    + by rewrite modify_keys.
    + rewrite own_modify. case_decide; [|done]. by apply fmap_is_Some.
Qed.

Lemma stat_rank (l : list TeamStat) : stat <$> (rank <$> l) = l.
Proof. induction l as [|s l IH]; [done|]. rewrite !fmap_cons, IH. done. Qed.

(** When no key met is an inherited name, the goals for sum up to the goals
    against. *)
Lemma goals_conserved (ms : list Match) :
  Forall (λ k, inherited k = false) (keys_of ms) →
  ∃ out ms', calculateTeamStats ms = Some (out, ms')
    ∧ js_sum (goalsFor <$> (stat <$> out)) = js_sum (goalsAgainst <$> (stat <$> out)).
Proof.
  intros Hk. rewrite calculateTeamStats_eq. eexists _, _. split; [done|].
  rewrite !(js_sum_Permutation _ _ (fmap_Permutation _ _ _
              (fmap_Permutation _ _ _ (ranked_Permutation ms)))).
  rewrite stat_rank.
  change (field_total goalsFor (teamStats_of ms) = field_total goalsAgainst (teamStats_of ms)).
  induction ms as [|m ms IH] using rev_ind; [done|].
  rewrite keys_of_snoc, Forall_app, !Forall_cons in Hk.
  destruct Hk as (Hk & Ha & Hb & _).
  rewrite teamStats_of_snoc.
  destruct (body_result_totals (teamStats_of ms) m) as [-> ->];
    [apply teamStats_of_NoDup|done|done|].
  rewrite (IH Hk). rewrite <-!js_add_assoc. by rewrite (js_add_comm (scoreA m)).
Qed.

(** ** Keys that are names of Object.prototype *)

(** C1 at a match whose [teamA] is the one player "constructor": the lookup
    finds the inherited [constructor], no entry is made, and the updates of
    the side of [teamA] reach no entry; only Bob's entry is returned. *)
Theorem calculateTeamStats_constructor_side_lost :
  teamKey <$> rosters constructor_team = [str "constructor"; str "Bob"]
  ∧ get (teamStats_of constructor_team) (str "constructor") = Inherited
  ∧ fst <$> calculateTeamStats constructor_team
    = Some [ {| stat := {| team := [str "Bob"]; wins := 0; losses := 1;
                           draws := 0; goalsFor := Num 1;
                           goalsAgainst := Num 3; matches := 1 |};
                points := 0; goalDifference := Num (-2) |} ].
Proof. vm_compute. by repeat split. Qed.

(** C2 at the same list: two distinct keys are met, one entry is returned. *)
Theorem calculateTeamStats_constructor_entry_missing :
  ∃ out ms', calculateTeamStats constructor_team = Some (out, ms')
    ∧ length (remove_dups (keys_of constructor_team)) = 2%nat
    ∧ length out = 1%nat.
Proof.
  rewrite calculateTeamStats_eq. eexists _, _. split; [done|].
  vm_compute. by split.
Qed.

(** C9 at the same list: the goals for sum to 1, the goals against to 3. *)
Theorem calculateTeamStats_constructor_goals_lost :
  ∃ out ms', calculateTeamStats constructor_team = Some (out, ms')
    ∧ js_sum (goalsFor <$> (stat <$> out)) = Num 1
    ∧ js_sum (goalsAgainst <$> (stat <$> out)) = Num 3.
Proof.
  rewrite calculateTeamStats_eq. eexists _, _. split; [done|].
  vm_compute. by split.
Qed.

(** C10 at a match of "constructor" against "constructor": both rosters have
    the same key, the call returns, and there is no shared entry at all. *)
Theorem calculateTeamStats_constructor_shared_entry_missing :
  teamKey <$> rosters constructor_both = [str "constructor"; str "constructor"]
  ∧ fst <$> calculateTeamStats constructor_both = Some [].
Proof. vm_compute. by split. Qed.

(** ** The owner of a document *)

Section Scoping.
Context {D : Type} (owner : D → jsstring).
Implicit Types (c : collection D) (d : D) (sub : jsstring).

Lemma find_by_userId_spec sub c (p : N * D) :
  p ∈ find_by_userId owner sub c ↔ c !! p.1 = Some p.2 ∧ owner p.2 = sub.
Proof.
  unfold find_by_userId. rewrite list_elem_of_filter.
  destruct p as [id d]. rewrite elem_of_map_to_list. simpl. tauto.
Qed.





Lemma findOne_by_id_and_userId_Some id sub c d :
  findOne_by_id_and_userId owner id sub c = Some d →
  c !! id = Some d ∧ owner d = sub.
Proof.
  unfold findOne_by_id_and_userId. destruct (c !! id) as [d0|]; simpl; [|done].
  case_decide; [|done]. by intros [= <-].
Qed.

End Scoping.



(** Without a decodable token no route is run. *)
Lemma authenticateToken_rejects {S} (auth : authorization)
    (next : jsstring → S → response * S) (s : S) :
  (∀ sub, auth ≠ Decoded sub) →
  (authenticateToken auth next s).2 = s
  ∧ owners_in (body (authenticateToken auth next s).1) = [].
Proof. destruct auth; simpl; [done|done|]. intros H. by destruct (H sub). Qed.

(** The older server lists the groups of whatever [userId] the query names,
    and stores a new group under the [userId] the body names. *)
Lemma legacy_owner_is_client_supplied (validate_group : Group → bool)
    (c : collection Group) (b : GroupBody) (id : N) (g : Group) (c' : collection Group) :
  (Legacy.get_api_groups (str "alice") alice_store).1
  = {| status := 200; body := Groups [(1%N, alice_group)] |}
  ∧ (Legacy.post_api_groups validate_group b c
     = ({| status := 201; body := OneGroup id g |}, c') →
     body_userId b = Some (GroupDoc.userId g) ∧ c' !! id = Some g).
Proof.
  split.
  - unfold Legacy.get_api_groups, find_by_userId, alice_store.
    by rewrite map_to_list_singleton.
  - unfold Legacy.post_api_groups, save_new.
    destruct (body_name b), (body_userId b); try done.
    destruct (validate_group _); [|done].
    intros [= <- <- <-]. split; [done|]. apply lookup_insert_eq.
Qed.

(** C8 at the older server: its update and delete routes look the document
    up by [_id] alone.  The group stored for alice is deleted, and is taken
    over, by a request that carries no identity at all, where the routes of
    src/server.js answer 404 to bob and leave the group alone. *)
Theorem legacy_group_routes_not_scoped :
  alice_store !! 1%N = Some alice_group
  ∧ GroupDoc.userId alice_group = str "alice"
  ∧ Legacy.delete_api_groups_id 1 alice_store
    = ({| status := 200; body := Message |}, ∅)
  ∧ Legacy.put_api_groups_id 1 bob_body alice_store
    = (let g := {| GroupDoc.name := str "Taken"; GroupDoc.members := [];
                   GroupDoc.userId := str "bob" |} in
       ({| status := 200; body := OneGroup 1 g |}, {[ 1%N := g ]}))
  ∧ delete_api_groups_id 1 (str "bob") alice_store
    = ({| status := 404; body := ErrorMessage |}, alice_store)
  ∧ put_api_groups_id (λ _, true) 1 bob_body (str "bob") alice_store
    = ({| status := 404; body := ErrorMessage |}, alice_store).
Proof.
  unfold alice_store, Legacy.delete_api_groups_id, Legacy.put_api_groups_id,
    delete_api_groups_id, put_api_groups_id, findOne_by_id_and_userId.
  rewrite !lookup_singleton_eq, delete_singleton_eq, insert_singleton_eq.
  repeat split.
Qed.

(** * Further properties of the aggregator *)

Lemma elem_of_ranked (ms : list Match) (e : RankedStat) :
  e ∈ array_sort by_rank (rank <$> Object_values (teamStats_of ms))
  ↔ ∃ k s, own (teamStats_of ms) k = Some s ∧ e = rank s.
Proof.
  rewrite ranked_Permutation, list_elem_of_fmap. split.
  - intros (s & -> & Hs). apply list_elem_of_fmap in Hs as ([k s'] & -> & Hs).
    exists k, s'. split; [by apply teamStats_of_entry|done].
  - intros (k & s & Hs & ->). exists s. split; [done|].
    apply list_elem_of_fmap. exists (k, s). split; [done|].
    by apply teamStats_of_entry.
Qed.

Lemma entry_key_own (ms : list Match) k s :
  own (teamStats_of ms) k = Some s → entry_key (rank s) = k.
Proof.
  intros Hs. destruct (team_of_entry ms k s Hs) as (r & Hr & Ht).
  unfold entry_key. simpl. rewrite Ht. by apply join_sorted_first_roster in Hr.
Qed.

(** X1: the loop body never reads a field of [undefined]: for every
    accumulator and every match, also under keys that are inherited names,
    it completes, and so do the loop and the function. *)
Theorem calculateTeamStats_no_TypeError (ts : object TeamStat) (m : Match)
    (ms : list Match) :
  is_Some (forEach_body ts m) ∧ is_Some (forEach ts ms)
  ∧ is_Some (calculateTeamStats ms).
Proof.
  rewrite forEach_body_eq, forEach_eq, calculateTeamStats_eq.
  repeat split; by eexists.
Qed.

Lemma ranked_keys (ms : list Match) :
  entry_key <$> array_sort by_rank (rank <$> Object_values (teamStats_of ms))
  ≡ₚ counted_keys ms.
Proof.
  rewrite ranked_Permutation, <-teamStats_of_keys.
  rewrite <-list_fmap_compose, <-list_fmap_compose.
  assert ((entry_key ∘ rank ∘ snd) <$> teamStats_of ms = (teamStats_of ms).*1)
    as ->; [|done].
  apply list_fmap_ext. intros i [k s] Hi. simpl.
  apply (entry_key_own ms), teamStats_of_entry.
  by eapply list_elem_of_lookup_2.
Qed.

(** X2: the entries returned stand, one each, for the distinct keys met
    that are not names of [Object.prototype]: no team is listed twice. *)
Theorem standings_keys (ms : list Match) :
  ∃ out ms', calculateTeamStats ms = Some (out, ms')
    ∧ entry_key <$> out ≡ₚ counted_keys ms
    ∧ NoDup (entry_key <$> out).
Proof.
  rewrite calculateTeamStats_eq. eexists _, _. split; [done|].
  split; [apply ranked_keys|]. rewrite ranked_keys. apply NoDup_remove_dups.
Qed.

(** X3: every entry returned counts one match for each roster of the input
    that has its key, and so at least one. *)
Theorem standings_matches_count (ms : list Match) :
  ∃ out ms', calculateTeamStats ms = Some (out, ms')
    ∧ Forall (λ e : RankedStat,
                matches e
                = Z.of_nat (length (filter (λ r, teamKey r = entry_key e)
                                           (rosters ms)))
                ∧ 1 ≤ matches e) out.
Proof.
  rewrite calculateTeamStats_eq. eexists _, _. split; [done|].
  apply Forall_forall. intros e (k & s & Hs & ->)%elem_of_ranked.
  rewrite (entry_key_own ms k s Hs). simpl.
  pose proof (matches_of_entry ms k s Hs) as Hm. split; [done|].
  rewrite Hm.
  assert (k ∈ keys_of ms) as Hk.
  { apply (own_teamStats_of_is_Some k ms). by eexists. }
  apply list_elem_of_fmap in Hk as (r & -> & Hr).
  assert (r ∈ filter (λ r', teamKey r' = teamKey r) (rosters ms)) as Hin
    by (by apply list_elem_of_filter).
  destruct (filter _ _); [by apply elem_of_nil in Hin|]. simpl. lia.
Qed.

(** X4: in every entry returned the wins, losses and draws add up to the
    matches, none of them is negative, and the points lie between 0 and
    three times the matches, whatever the scores were. *)
Theorem standings_counters (ms : list Match) :
  ∃ out ms', calculateTeamStats ms = Some (out, ms')
    ∧ Forall (λ e : RankedStat,
                wins e + losses e + draws e = matches e
                ∧ 0 ≤ wins e ∧ 0 ≤ losses e ∧ 0 ≤ draws e
                ∧ 0 ≤ points e ≤ 3 * matches e) out.
Proof.
  rewrite calculateTeamStats_eq. eexists _, _. split; [done|].
  apply Forall_forall. intros e (k & s & Hs & ->)%elem_of_ranked.
  assert (wins s + losses s + draws s = matches s
          ∧ 0 ≤ wins s ∧ 0 ≤ losses s ∧ 0 ≤ draws s) as H.
  { revert Hs. apply (entries_ind (λ s, wins s + losses s + draws s = matches s
                                       ∧ 0 ≤ wins s ∧ 0 ≤ losses s ∧ 0 ≤ draws s)).
    - intros r. simpl. lia.
    - intros m s' _ Hs'. unfold sideA, sideB.
      destruct (js_gt _ _); [|destruct (js_lt _ _)]; simpl; lia. }
  simpl. lia.
Qed.

(** ** Totals over the entries *)

Lemma body_result_field_total (field : TeamStat → jsnum) (xa xb : jsnum)
    (ts : object TeamStat) (m : Match) :
  (∀ r, field (newStat r) = Num 0) →
  (∀ s, field (sideA m s) = js_add (field s) xa) →
  (∀ s, field (sideB m s) = js_add (field s) xb) →
  NoDup ts.*1 →
  inherited (teamKey (teamA m)) = false →
  inherited (teamKey (teamB m)) = false →
  field_total field (body_result ts m)
  = js_add (js_add (field_total field ts) xa) xb.
Proof.
  intros Hnew HA HB Hnd Ha Hb. unfold body_result.
  set (t0 := ensure (teamKey (teamA m)) (sort_strings (teamA m)) ts).
  set (t1 := ensure (teamKey (teamB m)) (sort_strings (teamB m)) t0).
  assert (NoDup t1.*1) as Hnd1 by (by do 2 apply ensure_NoDup).
  assert (is_Some (own t1 (teamKey (teamA m)))) as HsA.
  { unfold t1, t0. rewrite !own_ensure by done.
    repeat case_decide; try done; by eexists. }
  assert (is_Some (own t1 (teamKey (teamB m)))) as HsB.
  { unfold t1. rewrite own_ensure by done.
    repeat case_decide; try done; by eexists. }
  rewrite (total_modify field _ _ xb), (total_modify field _ _ xa); try done.
  - unfold t1, t0. by rewrite !total_ensure.
  - by rewrite modify_keys.
  - rewrite own_modify. case_decide; [|done]. by apply fmap_is_Some.
Qed.

Lemma js_sum_Num (l : list Z) : js_sum (Num <$> l) = Num (Z_sum l).
Proof.
  induction l as [|z l IH]; [done|].
  rewrite fmap_cons. unfold js_sum in *. simpl. by rewrite IH.
Qed.

Lemma Z_sum_Permutation (l1 l2 : list Z) : l1 ≡ₚ l2 → Z_sum l1 = Z_sum l2.
Proof.
  induction 1 as [|x l1 l2 _ IH|x y l|l1 l2 l3 _ IH1 _ IH2];
    unfold Z_sum in *; simpl; lia.
Qed.

(** The integer total of a counter over the entries returned, read on the
    accumulator. *)
Lemma Z_sum_ranked (f : TeamStat → Z) (ms : list Match) :
  Num (Z_sum ((λ e : RankedStat, f e)
                <$> array_sort by_rank (rank <$> Object_values (teamStats_of ms))))
  = field_total (λ s, Num (f s)) (teamStats_of ms).
Proof.
  rewrite (Z_sum_Permutation _ _ (fmap_Permutation _ _ _ (ranked_Permutation ms))).
  unfold field_total. rewrite <-js_sum_Num. f_equal.
  rewrite <-!list_fmap_compose. by apply list_fmap_ext.
Qed.

Lemma all_scores_snoc (ms : list Match) (m : Match) :
  all_scores (ms ++ [m]) = all_scores ms ++ [scoreA m; scoreB m].
Proof. unfold all_scores. by rewrite bind_app. Qed.

(** In the model, without rounding: both goal totals are the sum of all the
    scores. *)
Lemma goal_totals_all_scores (ms : list Match) :
  Forall (λ k, inherited k = false) (keys_of ms) →
  ∃ out ms', calculateTeamStats ms = Some (out, ms')
    ∧ js_sum ((λ e : RankedStat, goalsFor e) <$> out) = js_sum (all_scores ms)
    ∧ js_sum ((λ e : RankedStat, goalsAgainst e) <$> out) = js_sum (all_scores ms).
Proof.
  intros Hk. rewrite calculateTeamStats_eq. eexists _, _. split; [done|].
  rewrite !(js_sum_Permutation _ _ (fmap_Permutation _ _ _ (ranked_Permutation ms))).
  assert (∀ g : TeamStat → jsnum,
            js_sum ((λ e : RankedStat, g e) <$> (rank <$> (teamStats_of ms).*2))
            = field_total g (teamStats_of ms)) as Hg.
  { intros g. unfold field_total. f_equal.
    rewrite <-!list_fmap_compose. by apply list_fmap_ext. }
  rewrite !Hg. clear Hg.
  induction ms as [|m ms IH] using rev_ind; [done|].
  rewrite keys_of_snoc, Forall_app, !Forall_cons in Hk.
  destruct Hk as (Hk & Ha & Hb & _). destruct (IH Hk) as [IHf IHa].
  rewrite teamStats_of_snoc, all_scores_snoc, js_sum_app.
  rewrite (body_result_field_total goalsFor (scoreA m) (scoreB m)),
          (body_result_field_total goalsAgainst (scoreB m) (scoreA m));
    try done; try apply teamStats_of_NoDup;
    try (intros s; unfold sideA, sideB; by repeat case_match).
  rewrite IHf, IHa. unfold js_sum at 2 4. simpl. rewrite js_add_0_r.
  split; [by rewrite js_add_assoc|].
  by rewrite <-js_add_assoc, (js_add_comm (scoreB m)).
Qed.

Lemma goalsFor_sideA m s : goalsFor (sideA m s) = js_add (goalsFor s) (scoreA m).
Proof. unfold sideA. by repeat case_match. Qed.

Lemma goalsAgainst_sideA m s :
  goalsAgainst (sideA m s) = js_add (goalsAgainst s) (scoreB m).
Proof. unfold sideA. by repeat case_match. Qed.

Lemma goalsFor_sideB m s : goalsFor (sideB m s) = js_add (goalsFor s) (scoreB m).
Proof. unfold sideB. by repeat case_match. Qed.

Lemma goalsAgainst_sideB m s :
  goalsAgainst (sideB m s) = js_add (goalsAgainst s) (scoreA m).
Proof. unfold sideB. by repeat case_match. Qed.

Lemma score_total_snoc (ms : list Match) (m : Match) :
  score_total (ms ++ [m])
  = score_total ms + (score_value (scoreA m) + score_value (scoreB m)).
Proof.
  unfold score_total. rewrite fmap_app. simpl.
  induction ((λ m0, score_value (scoreA m0) + score_value (scoreB m0)) <$> ms)
    as [|z l IH]; unfold Z_sum in *; simpl; lia.
Qed.

Lemma score_total_cons (m : Match) (ms : list Match) :
  score_total (m :: ms)
  = score_value (scoreA m) + score_value (scoreB m) + score_total ms.
Proof. done. Qed.

Lemma score_total_nonneg (ms : list Match) :
  Forall (λ m, safe_score (scoreA m) ∧ safe_score (scoreB m)) ms →
  0 ≤ score_total ms.
Proof.
  induction 1 as [|m ms [Ha Hb] _ IH]; [done|].
  rewrite score_total_cons.
  destruct (scoreA m), (scoreB m); simpl in *; try done. lia.
Qed.

Lemma in_range_sides (T : Z) (m : Match) (s : TeamStat) (a b : Z) :
  scoreA m = Num a → scoreB m = Num b → 0 ≤ a → 0 ≤ b →
  in_range T s →
  in_range (T + (a + b)) s
  ∧ in_range (T + (a + b)) (sideA m s)
  ∧ in_range (T + (a + b)) (sideB m s)
  ∧ in_range (T + (a + b)) (sideB m (sideA m s)).
Proof.
  intros Ha Hb Ha0 Hb0 (f & g & Hf & Hg & Hfr & Hgr). unfold in_range.
  rewrite !goalsFor_sideB, !goalsAgainst_sideB, !goalsFor_sideA,
          !goalsAgainst_sideA, Hf, Hg, Ha, Hb. simpl.
  repeat split; eexists _, _; (split; [done|]); (split; [done|]); lia.
Qed.

Lemma entries_in_range (ms : list Match) k s :
  Forall (λ m, safe_score (scoreA m) ∧ safe_score (scoreB m)) ms →
  own (teamStats_of ms) k = Some s → in_range (score_total ms) s.
Proof.
  intros Hms. revert s.
  induction ms as [|m ms IH] using rev_ind; intros s; [done|].
  apply Forall_app in Hms as [Hms Hm]. apply Forall_cons in Hm as [[Ha Hb] _].
  destruct (inherited k) eqn:Hk.
  { by rewrite own_teamStats_of_inherited. }
  rewrite teamStats_of_snoc, own_body_result, score_total_snoc by done.
  destruct (scoreA m) as [a|] eqn:Ea; [|done].
  destruct (scoreB m) as [b|] eqn:Eb; [|done]. simpl in Ha, Hb. simpl.
  pose proof (score_total_nonneg ms Hms) as HT.
  assert (∀ r, in_range (score_total ms) (newStat r)) as Hnew.
  { intros r. exists 0, 0. simpl. repeat split; try done; lia. }
  assert (∀ s0, in_range (score_total ms) s0 →
            in_range (score_total ms + (a + b)) s0
            ∧ in_range (score_total ms + (a + b)) (sideA m s0)
            ∧ in_range (score_total ms + (a + b)) (sideB m s0)
            ∧ in_range (score_total ms + (a + b)) (sideB m (sideA m s0))) as Hstep
    by (intros s0; by apply in_range_sides).
  unfold key_step. destruct (own (teamStats_of ms) k) as [s0|] eqn:E; simpl.
  - specialize (IH Hms s0 eq_refl).
    repeat case_decide; simpl; intros [= <-]; by apply Hstep.
  - repeat case_decide; simpl; intros [= <-]; try done; by apply Hstep.
Qed.

Lemma js_sum_all_scores (ms : list Match) :
  Forall (λ m, safe_score (scoreA m) ∧ safe_score (scoreB m)) ms →
  js_sum (all_scores ms) = Num (score_total ms).
Proof.
  induction 1 as [|m ms [Ha Hb] _ IH]; [done|].
  rewrite score_total_cons.
  change (all_scores (m :: ms)) with (scoreA m :: scoreB m :: all_scores ms).
  change (js_sum (scoreA m :: scoreB m :: all_scores ms))
    with (js_add (scoreA m) (js_add (scoreB m) (js_sum (all_scores ms)))).
  rewrite IH.
  destruct (scoreA m), (scoreB m); simpl in *; try done. f_equal. lia.
Qed.

(** X5: when the scores are non-negative integers with a sum below 2^53 and
    no roster key is a name of [Object.prototype], every goal sum of every
    entry is an integer between 0 and the sum of all scores, so none is
    rounded, and the goals for of all entries and the goals against of all
    entries each add up to the sum of all scores. *)
Theorem standings_goal_totals (ms : list Match) :
  safe_scores ms →
  Forall (λ k, inherited k = false) (keys_of ms) →
  ∃ out ms', calculateTeamStats ms = Some (out, ms')
    ∧ score_total ms < 2 ^ 53
    ∧ Forall (λ e : RankedStat, in_range (score_total ms) e) out
    ∧ js_sum ((λ e : RankedStat, goalsFor e) <$> out) = Num (score_total ms)
    ∧ js_sum ((λ e : RankedStat, goalsAgainst e) <$> out) = Num (score_total ms).
Proof.
  intros [Hsafe Hbound] Hk.
  destruct (goal_totals_all_scores ms Hk) as (out & ms' & Hc & Hf & Hg).
  exists out, ms'. split; [done|]. split; [done|].
  rewrite Hf, Hg, js_sum_all_scores by done. split; [|done].
  rewrite calculateTeamStats_eq in Hc. injection Hc as <- _.
  apply Forall_forall. intros e (k & s & Hs & ->)%elem_of_ranked.
  by apply (entries_in_range ms k).
Qed.

Lemma standings_goal_totals_witness :
  safe_scores two_matches
  ∧ Forall (λ k, inherited k = false) (keys_of two_matches)
  ∧ ∃ out ms', calculateTeamStats two_matches = Some (out, ms')
      ∧ score_total two_matches < 2 ^ 53
      ∧ Forall (λ e : RankedStat, in_range (score_total two_matches) e) out
      ∧ js_sum ((λ e : RankedStat, goalsFor e) <$> out)
        = Num (score_total two_matches)
      ∧ js_sum ((λ e : RankedStat, goalsAgainst e) <$> out)
        = Num (score_total two_matches).
Proof.
  assert (safe_scores two_matches) as H1.
  { split; [|reflexivity]. repeat constructor; simpl; lia. }
  assert (Forall (λ k, inherited k = false) (keys_of two_matches)) as H2
    by (repeat constructor).
  split; [exact H1|]. split; [exact H2|].
  exact (standings_goal_totals two_matches H1 H2).
Defined.

(** X6: when no roster key is a name of [Object.prototype], the wins of all
    entries are as many as the losses, and the matches of all entries are
    twice the matches of the input. *)
Theorem standings_win_loss_totals (ms : list Match) :
  Forall (λ k, inherited k = false) (keys_of ms) →
  ∃ out ms', calculateTeamStats ms = Some (out, ms')
    ∧ Z_sum ((λ e : RankedStat, wins e) <$> out)
      = Z_sum ((λ e : RankedStat, losses e) <$> out)
    ∧ Z_sum ((λ e : RankedStat, matches e) <$> out) = 2 * Z.of_nat (length ms).
Proof.
  intros Hk. rewrite calculateTeamStats_eq. eexists _, _. split; [done|].
  assert (field_total (λ s, Num (wins s)) (teamStats_of ms)
          = field_total (λ s, Num (losses s)) (teamStats_of ms)
          ∧ field_total (λ s, Num (matches s)) (teamStats_of ms)
            = Num (2 * Z.of_nat (length ms))) as [Hw Hm].
  { induction ms as [|m ms IH] using rev_ind; [done|].
    rewrite keys_of_snoc, Forall_app, !Forall_cons in Hk.
    destruct Hk as (Hk & Ha & Hb & _). destruct (IH Hk) as [IHw IHm].
    rewrite teamStats_of_snoc, length_app. simpl.
    set (w := if js_gt (scoreA m) (scoreB m) then 1 else 0).
    set (l := if js_gt (scoreA m) (scoreB m) then 0
              else if js_lt (scoreA m) (scoreB m) then 1 else 0).
    rewrite (body_result_field_total (λ s, Num (wins s)) (Num w) (Num l)),
            (body_result_field_total (λ s, Num (losses s)) (Num l) (Num w)),
            (body_result_field_total (λ s, Num (matches s)) (Num 1) (Num 1));
      try done; try apply teamStats_of_NoDup;
      try (intros s; unfold sideA, sideB, w, l;
           destruct (js_gt _ _); [|destruct (js_lt _ _)]; simpl; f_equal; lia).
    rewrite IHw, IHm. split.
    - by rewrite <-!js_add_assoc, (js_add_comm (Num w)).
    - simpl. f_equal. lia. }
  rewrite <-(Z_sum_ranked wins), <-(Z_sum_ranked losses) in Hw.
  rewrite <-(Z_sum_ranked matches) in Hm.
  injection Hw as Hw. injection Hm as Hm. done.
Qed.

Lemma standings_win_loss_totals_witness :
  Forall (λ k, inherited k = false) (keys_of two_matches)
  ∧ ∃ out ms', calculateTeamStats two_matches = Some (out, ms')
      ∧ Z_sum ((λ e : RankedStat, wins e) <$> out)
        = Z_sum ((λ e : RankedStat, losses e) <$> out)
      ∧ Z_sum ((λ e : RankedStat, matches e) <$> out)
        = 2 * Z.of_nat (length two_matches).
Proof.
  assert (Forall (λ k, inherited k = false) (keys_of two_matches)) as H
    by (repeat constructor).
  split; [exact H|]. exact (standings_win_loss_totals two_matches H).
Defined.

(** ** The order of the names, and the separator *)

Lemma sides_same_scores (m1 m2 : Match) :
  scoreA m1 = scoreA m2 → scoreB m1 = scoreB m2 →
  sideA m1 = sideA m2 ∧ sideB m1 = sideB m2.
Proof. intros Ha Hb. unfold sideA, sideB. by rewrite Ha, Hb. Qed.

Lemma body_result_same_up_to_order (ts : object TeamStat) (m1 m2 : Match) :
  same_up_to_order m1 m2 → body_result ts m1 = body_result ts m2.
Proof.
  intros (HA & HB & Ha & Hb). unfold body_result.
  destruct (sides_same_scores m1 m2 Ha Hb) as [-> ->].
  by rewrite (teamKey_perm _ _ HA), (teamKey_perm _ _ HB),
             (sort_strings_perm _ _ HA), (sort_strings_perm _ _ HB).
Qed.

Lemma teamStats_of_same_up_to_order (ms1 ms2 : list Match) :
  Forall2 same_up_to_order ms1 ms2 → teamStats_of ms1 = teamStats_of ms2.
Proof.
  unfold teamStats_of. generalize (@nil (jsstring * TeamStat)).
  intros ts H. revert ts.
  induction H as [|m1 m2 ms1 ms2 Hm _ IH]; intros ts; [done|].
  simpl. by rewrite (body_result_same_up_to_order ts m1 m2), IH.
Qed.

Lemma sorted_match_same_up_to_order (m : Match) :
  same_up_to_order (sorted_match m) m.
Proof.
  unfold same_up_to_order, sorted_match. simpl.
  repeat split; apply sort_strings_Permutation.
Qed.

(** X7: the order in which the names of a roster are stored does not reach
    the result: two match lists that differ only in the order of the names
    inside their rosters give the same entries in the same order. *)
Theorem standings_roster_order_irrelevant (ms1 ms2 : list Match) :
  Forall2 same_up_to_order ms1 ms2 →
  fst <$> calculateTeamStats ms1 = fst <$> calculateTeamStats ms2.
Proof.
  intros H. rewrite !calculateTeamStats_eq. simpl.
  by rewrite (teamStats_of_same_up_to_order ms1 ms2).
Qed.

Lemma standings_roster_order_irrelevant_witness :
  Forall2 same_up_to_order bob_first alice_first
  ∧ fst <$> calculateTeamStats bob_first = fst <$> calculateTeamStats alice_first.
Proof.
  assert (Forall2 same_up_to_order bob_first alice_first) as H.
  { constructor; [|constructor].
    split; [apply Permutation_swap|]. split; [reflexivity|].
    split; reflexivity. }
  split; [exact H|]. exact (standings_roster_order_irrelevant _ _ H).
Defined.

(** X8: a second call on the array the first call has left returns the same
    entries and changes the array no further. *)
Theorem calculateTeamStats_second_call (ms : list Match) :
  ∃ out ms', calculateTeamStats ms = Some (out, ms')
    ∧ calculateTeamStats ms' = Some (out, ms').
Proof.
  rewrite calculateTeamStats_eq. eexists _, _. split; [done|].
  rewrite calculateTeamStats_eq.
  rewrite (teamStats_of_same_up_to_order (sorted_match <$> ms) ms).
  - do 2 f_equal. rewrite <-list_fmap_compose. apply list_fmap_ext.
    intros i m _. unfold sorted_match. simpl. by rewrite !sort_strings_idemp.
  - apply Forall2_fmap_l, Forall_Forall2_diag, Forall_forall.
    intros m _. apply sorted_match_same_up_to_order.
Qed.

Lemma teamKey_singleton (k : jsstring) : teamKey [k] = k.
Proof. done. Qed.

Lemma remove_dups_twice (k : jsstring) : remove_dups [k; k] = [k].
Proof.
  cbn [remove_dups].
  destruct (decide_rel elem_of k [k]) as [H|H].
  - destruct (decide_rel elem_of k []) as [H'|H']; [by apply elem_of_nil in H'|done].
  - destruct H. apply elem_of_cons. by left.
Qed.

(** X9: the key is not delimited: a one-name roster whose only name is the
    comma-joined key of another roster has that roster's key.  A match
    between the two is then counted on one shared entry, with 2 matches for
    the one match (when the key is not a name of [Object.prototype]). *)
Theorem joined_name_shares_entry (m : Match) :
  teamB m = [teamKey (teamA m)] →
  inherited (teamKey (teamA m)) = false →
  teamKey (teamB m) = teamKey (teamA m)
  ∧ ∃ e ms', calculateTeamStats [m] = Some ([e], ms')
             ∧ entry_key e = teamKey (teamA m) ∧ matches e = 2.
Proof.
  intros HB Hk.
  assert (teamKey (teamB m) = teamKey (teamA m)) as Hkey
    by (by rewrite HB, teamKey_singleton).
  split; [done|].
  rewrite calculateTeamStats_eq.
  pose proof (ranked_keys [m]) as Hkeys.
  remember (array_sort by_rank (rank <$> Object_values (teamStats_of [m])))
    as out eqn:Hout. symmetry in Hout.
  pose proof (body_result_same_key [] m (eq_sym Hkey) Hk) as Hs.
  change (body_result [] m) with (teamStats_of [m]) in Hs.
  assert (rank (sideB m (sideA m (newStat (sort_strings (teamA m))))) ∈ out) as He.
  { rewrite <-Hout. apply elem_of_ranked. by eexists _, _. }
  assert (length out = 1%nat) as Hlen.
  { rewrite <-(length_fmap entry_key), Hkeys. unfold counted_keys, keys_of.
    cbn [rosters mbind list_bind app fmap list_fmap]. rewrite Hkey.
    rewrite filter_cons_True, filter_cons_True by done.
    by rewrite filter_nil, remove_dups_twice. }
  destruct out as [|e [|e' out]]; try done.
  apply list_elem_of_singleton in He as <-.
  eexists _, _. split; [done|]. split.
  - by apply (entry_key_own [m]).
  - simpl. by rewrite matches_sideB, matches_sideA.
Qed.

Lemma joined_name_shares_entry_witness :
  teamB joined_name_match = [teamKey (teamA joined_name_match)]
  ∧ inherited (teamKey (teamA joined_name_match)) = false
  ∧ teamKey (teamB joined_name_match) = teamKey (teamA joined_name_match)
  ∧ ∃ e ms', calculateTeamStats [joined_name_match] = Some ([e], ms')
             ∧ entry_key e = teamKey (teamA joined_name_match) ∧ matches e = 2.
Proof.
  assert (teamB joined_name_match = [teamKey (teamA joined_name_match)]) as H1
    by reflexivity.
  assert (inherited (teamKey (teamA joined_name_match)) = false) as H2
    by reflexivity.
  split; [exact H1|]. split; [exact H2|].
  exact (joined_name_shares_entry joined_name_match H1 H2).
Defined.

(** ** One turn of the loop *)



(** X11: on a match with numeric scores whose two rosters have different
    keys, neither a name of [Object.prototype], one turn of the loop applies
    the update rule once to the entry of each side, made fresh when the key
    is new: one more match, the own score on the goals for, the other score
    on the goals against, and a win, a loss or a draw by the scores. *)
Theorem forEach_body_rule (ts : object TeamStat) (m : Match) :
  numeric m →
  teamKey (teamA m) ≠ teamKey (teamB m) →
  inherited (teamKey (teamA m)) = false →
  inherited (teamKey (teamB m)) = false →
  ∃ ts', forEach_body ts m = Some (ts', sorted_match m)
    ∧ own ts' (teamKey (teamA m))
      = Some (rule_side (scoreA m) (scoreB m)
                (default (newStat (sort_strings (teamA m)))
                         (own ts (teamKey (teamA m)))))
    ∧ own ts' (teamKey (teamB m))
      = Some (rule_side (scoreB m) (scoreA m)
                (default (newStat (sort_strings (teamB m)))
                         (own ts (teamKey (teamB m))))).
Proof.
  intros Hm Hne Ha Hb. rewrite forEach_body_eq. eexists. split; [done|].
  destruct (body_result_rule ts m Hm Hne Ha Hb) as (HA & HB & _). done.
Qed.

Lemma forEach_body_rule_witness :
  numeric bob_match
  ∧ teamKey (teamA bob_match) ≠ teamKey (teamB bob_match)
  ∧ inherited (teamKey (teamA bob_match)) = false
  ∧ inherited (teamKey (teamB bob_match)) = false
  ∧ ∃ ts', forEach_body [] bob_match = Some (ts', sorted_match bob_match)
      ∧ own ts' (teamKey (teamA bob_match))
        = Some (rule_side (scoreA bob_match) (scoreB bob_match)
                  (default (newStat (sort_strings (teamA bob_match)))
                           (own [] (teamKey (teamA bob_match)))))
      ∧ own ts' (teamKey (teamB bob_match))
        = Some (rule_side (scoreB bob_match) (scoreA bob_match)
                  (default (newStat (sort_strings (teamB bob_match)))
                           (own [] (teamKey (teamB bob_match))))).
Proof.
  assert (numeric bob_match) as H1 by (split; exact I).
  assert (teamKey (teamA bob_match) ≠ teamKey (teamB bob_match)) as H2
    by (vm_compute; discriminate).
  assert (inherited (teamKey (teamA bob_match)) = false) as H3 by reflexivity.
  assert (inherited (teamKey (teamB bob_match)) = false) as H4 by reflexivity.
  split; [exact H1|]. split; [exact H2|]. split; [exact H3|]. split; [exact H4|].
  exact (forEach_body_rule [] bob_match H1 H2 H3 H4).
Defined.

(** X12: on a match with numeric scores whose two rosters have the same key,
    not a name of [Object.prototype], one turn of the loop puts both updates
    on the one entry: two more matches, both scores on the goals for and on
    the goals against, and a win and a loss when the scores differ, two
    draws when they are equal. *)
Theorem forEach_body_shared_key (ts : object TeamStat) (m : Match) :
  numeric m →
  teamKey (teamA m) = teamKey (teamB m) →
  inherited (teamKey (teamA m)) = false →
  ∃ ts' s', forEach_body ts m = Some (ts', sorted_match m)
    ∧ own ts' (teamKey (teamA m)) = Some s'
    ∧ let s := default (newStat (sort_strings (teamA m)))
                       (own ts (teamKey (teamA m))) in
      matches s' = matches s + 2
      ∧ goalsFor s' = js_add (js_add (goalsFor s) (scoreA m)) (scoreB m)
      ∧ goalsAgainst s' = js_add (js_add (goalsAgainst s) (scoreB m)) (scoreA m)
      ∧ (scoreA m ≠ scoreB m →
         wins s' = wins s + 1 ∧ losses s' = losses s + 1 ∧ draws s' = draws s)
      ∧ (scoreA m = scoreB m →
         wins s' = wins s ∧ losses s' = losses s ∧ draws s' = draws s + 2).
Proof.
  intros Hm He Hk. rewrite forEach_body_eq. eexists _, _. split; [done|].
  split; [by apply body_result_same_key|]. by apply rule_both_sides.
Qed.

Lemma forEach_body_shared_key_witness :
  numeric mirror_match
  ∧ teamKey (teamA mirror_match) = teamKey (teamB mirror_match)
  ∧ inherited (teamKey (teamA mirror_match)) = false
  ∧ ∃ ts' s', forEach_body [] mirror_match = Some (ts', sorted_match mirror_match)
      ∧ own ts' (teamKey (teamA mirror_match)) = Some s'
      ∧ let s := default (newStat (sort_strings (teamA mirror_match)))
                         (own [] (teamKey (teamA mirror_match))) in
        matches s' = matches s + 2
        ∧ goalsFor s'
          = js_add (js_add (goalsFor s) (scoreA mirror_match)) (scoreB mirror_match)
        ∧ goalsAgainst s'
          = js_add (js_add (goalsAgainst s) (scoreB mirror_match)) (scoreA mirror_match)
        ∧ (scoreA mirror_match ≠ scoreB mirror_match →
           wins s' = wins s + 1 ∧ losses s' = losses s + 1 ∧ draws s' = draws s)
        ∧ (scoreA mirror_match = scoreB mirror_match →
           wins s' = wins s ∧ losses s' = losses s ∧ draws s' = draws s + 2).
Proof.
  assert (numeric mirror_match) as H1 by (split; exact I).
  assert (teamKey (teamA mirror_match) = teamKey (teamB mirror_match)) as H2
    by reflexivity.
  assert (inherited (teamKey (teamA mirror_match)) = false) as H3 by reflexivity.
  split; [exact H1|]. split; [exact H2|]. split; [exact H3|].
  exact (forEach_body_shared_key [] mirror_match H1 H2 H3).
Defined.

(** ** The order of the result, whatever the scores *)


(** * The token of a request *)

Lemma split_not_nil (sep : N) (s : jsstring) : split sep s ≠ [].
Proof.
  destruct s as [|c s]; simpl; [done|].
  case_decide; [done|]. by destruct (split sep s).
Qed.

Lemma split_no_sep (sep : N) (a : jsstring) : sep ∉ a → split sep a = [a].
Proof.
  induction a as [|c a IH]; [done|].
  rewrite not_elem_of_cons. intros [Hc Ha]. simpl.
  rewrite decide_False by done. by rewrite IH.
Qed.

Lemma split_app (sep : N) (a b : jsstring) :
  sep ∉ a → split sep (a ++ sep :: b) = a :: split sep b.
Proof.
  induction a as [|c a IH]; simpl.
  - intros _. by rewrite decide_True.
  - rewrite not_elem_of_cons. intros [Hc Ha].
    rewrite decide_False by done. by rewrite IH.
Qed.

Lemma split_parts (sep : N) (s : jsstring) :
  Forall (λ part, sep ∉ part) (split sep s).
Proof.
  induction s as [|c s IH]; simpl.
  - repeat constructor. apply not_elem_of_nil.
  - case_decide as Hc.
    + constructor; [apply not_elem_of_nil|done].
    + destruct (split sep s) as [|part parts].
      * repeat constructor. rewrite not_elem_of_cons. split; [done|].
        apply not_elem_of_nil.
      * apply Forall_cons in IH as [Hp Hps]. constructor; [|done].
        rewrite not_elem_of_cons. split; [done|done].
Qed.

(** Joining the parts with the separator gives the string back. *)
Lemma join_split (sep : N) (s : jsstring) : join [sep] (split sep s) = s.
Proof.
  induction s as [|c s IH]; [done|]. simpl.
  pose proof (split_not_nil sep s) as Hne.
  destruct (decide (c = sep)) as [->|Hc].
  - destruct (split sep s) as [|part parts] eqn:E; [done|].
    simpl in *. by rewrite IH.
  - destruct (split sep s) as [|part parts] eqn:E; [done|].
    destruct parts as [|part' parts]; simpl in *; by rewrite <-IH.
Qed.

Lemma token_of_Some_inv (h t : jsstring) :
  token_of (Some h) = Some t →
  t ≠ [] ∧ (space ∉ t)
  ∧ ∃ scheme rest, (space ∉ scheme) ∧ h = scheme ++ space :: t ++ rest
                   ∧ (rest = [] ∨ ∃ r, rest = space :: r).
Proof.
  pose proof (join_split space h) as Hj.
  pose proof (split_parts space h) as Hp.
  unfold token_of. destruct h as [|c0 h0]; [done|].
  destruct (split space (c0 :: h0)) as [|scheme [|t' parts]] eqn:E; try done.
  simpl. destruct t' as [|c t']; [done|]. intros [= <-].
  apply Forall_cons in Hp as [Hs Hp]. apply Forall_cons in Hp as [Ht Hp].
  split; [done|]. split; [done|].
  destruct parts as [|part parts].
  - exists scheme, []. split; [done|]. split; [|by left].
    rewrite <-Hj. simpl. by rewrite app_nil_r.
  - exists scheme, (space :: join [space] (part :: parts)).
    split; [done|]. split; [|right; by eexists].
    rewrite <-Hj. cbn [join]. done.
Qed.

Lemma token_of_intro (scheme t rest : jsstring) :
  t ≠ [] → space ∉ t → space ∉ scheme →
  rest = [] ∨ (∃ r, rest = space :: r) →
  token_of (Some (scheme ++ space :: t ++ rest)) = Some t.
Proof.
  intros Hne Ht Hs Hrest.
  assert (split space (scheme ++ space :: t ++ rest) !! 1%nat = Some t) as Hl.
  { rewrite split_app by done. simpl. destruct Hrest as [->|[r ->]].
    - by rewrite app_nil_r, split_no_sep.
    - by rewrite split_app. }
  assert (∀ h', h' ≠ [] →
            token_of (Some h')
            = match split space h' !! 1%nat with
              | Some (c :: t') => Some (c :: t')
              | _ => None
              end) as Hcons by (by intros [|? ?]).
  rewrite Hcons by (by destruct scheme).
  unfold jsstring in *. rewrite Hl. by destruct t.
Qed.

(** X14: the token a request is authenticated with is the second of the
    parts its Authorization header has between spaces, and must not be
    empty.  The first part, the scheme, is not looked at, and what follows a
    second space is dropped. *)
Theorem token_of_spec (h t : jsstring) :
  token_of (Some h) = Some t
  ↔ (t ≠ [] ∧ (space ∉ t)
     ∧ ∃ scheme rest, (space ∉ scheme) ∧ h = scheme ++ space :: t ++ rest
                      ∧ (rest = [] ∨ ∃ r, rest = space :: r)).
Proof.
  split; [apply token_of_Some_inv|].
  intros (Hne & Ht & scheme & rest & Hs & -> & Hrest). by apply token_of_intro.
Qed.

(** X15: a request with no Authorization header, or with one that has no
    space in it, is answered 401 and the handler is not run, whatever the
    token library and the handler are. *)
Theorem authorize_no_token {S} (decode_sub : jsstring → option jsstring)
    (next : jsstring → S → response * S) (s : S) (authHeader : option jsstring) :
  (∀ h, authHeader = Some h → space ∉ h) →
  authenticateToken (authorize decode_sub authHeader) next s
  = ({| status := 401; body := ErrorMessage |}, s).
Proof.
  intros Hh. unfold authorize.
  assert (token_of authHeader = None) as ->; [|done].
  destruct authHeader as [h|]; [|done].
  destruct (token_of (Some h)) as [t|] eqn:E; [|done].
  apply token_of_Some_inv in E as (_ & _ & scheme & rest & _ & -> & _).
  destruct (Hh _ eq_refl). apply elem_of_app. right. apply elem_of_cons. by left.
Qed.

Lemma authorize_no_token_witness :
  (∀ h, Some (str "Bearer") = Some h → space ∉ h)
  ∧ authenticateToken (authorize (λ _, Some (str "alice")) (Some (str "Bearer")))
      (λ sub, get_api_groups sub) alice_store
    = ({| status := 401; body := ErrorMessage |}, alice_store).
Proof.
  assert (∀ h, Some (str "Bearer") = Some h → space ∉ h) as H.
  { intros h [= <-]. vm_compute. intros Hin.
    repeat (apply elem_of_cons in Hin as [Hin|Hin]; [discriminate Hin|]).
    by apply elem_of_nil in Hin. }
  split; [exact H|].
  exact (authorize_no_token (λ _, Some (str "alice"))
           (λ sub, get_api_groups sub) alice_store (Some (str "Bearer")) H).
Defined.

(** X16: the scheme word of the header does not matter: with the same
    non-empty token after the first space, any two headers are authorized
    alike, whatever stands before the space and after a second one. *)
Theorem authorize_scheme_ignored (decode_sub : jsstring → option jsstring)
    (scheme1 scheme2 t rest : jsstring) :
  space ∉ scheme1 → space ∉ scheme2 → space ∉ t → t ≠ [] →
  authorize decode_sub (Some (scheme1 ++ space :: t ++ space :: rest))
  = authorize decode_sub (Some (scheme2 ++ space :: t))
  ∧ token_of (Some (scheme2 ++ space :: t)) = Some t.
Proof.
  intros H1 H2 Ht Hne. unfold authorize.
  assert (token_of (Some (scheme1 ++ space :: t ++ space :: rest)) = Some t) as ->.
  { apply token_of_intro; try done. right. by eexists. }
  assert (token_of (Some (scheme2 ++ space :: t)) = Some t) as ->; [|done].
  rewrite <-(app_nil_r t) at 1. apply token_of_intro; try done. by left.
Qed.

Lemma authorize_scheme_ignored_witness :
  (space ∉ str "Basic") ∧ (space ∉ str "Bearer") ∧ (space ∉ str "abc")
  ∧ str "abc" ≠ []
  ∧ authorize (λ _, None)
      (Some (str "Basic" ++ space :: str "abc" ++ space :: str "tail"))
    = authorize (λ _, None) (Some (str "Bearer" ++ space :: str "abc"))
  ∧ token_of (Some (str "Bearer" ++ space :: str "abc")) = Some (str "abc").
Proof.
  assert (∀ s : jsstring, bool_decide (space ∈ s) = false → space ∉ s) as Hd.
  { intros s Hs Hin. by apply bool_decide_eq_false in Hs. }
  assert (space ∉ str "Basic") as H1 by (apply Hd; vm_compute; reflexivity).
  assert (space ∉ str "Bearer") as H2 by (apply Hd; vm_compute; reflexivity).
  assert (space ∉ str "abc") as H3 by (apply Hd; vm_compute; reflexivity).
  assert (str "abc" ≠ []) as H4 by discriminate.
  split; [exact H1|]. split; [exact H2|]. split; [exact H3|]. split; [exact H4|].
  exact (authorize_scheme_ignored (λ _, None) (str "Basic") (str "Bearer")
           (str "abc") (str "tail") H1 H2 H3 H4).
Defined.

(** * The routes of src/server.js *)

Lemma new_id_fresh {D} (c : collection D) : c !! new_id c = None.
Proof. apply not_elem_of_dom, is_fresh. Qed.

(** X17: POST /api/groups answers 201 or 400.  On 201 the group is stored
    under an [_id] that was not in use, so nothing is overwritten; it
    belongs to the caller, whatever [userId] the body names; and the
    caller's next GET /api/groups lists it.  On 400 nothing is stored. *)
Theorem post_api_groups_outcome (validate_group : Group → bool)
    (b : GroupBody) (sub : jsstring) (c : collection Group) :
  let r := post_api_groups validate_group b sub c in
  (status r.1 = 201
   ∧ ∃ id g, body r.1 = OneGroup id g ∧ GroupDoc.userId g = sub
             ∧ c !! id = None ∧ r.2 = <[id := g]> c
             ∧ ∃ l, (get_api_groups sub r.2).1
                    = {| status := 200; body := Groups l |} ∧ (id, g) ∈ l)
  ∨ (status r.1 = 400 ∧ r.2 = c).
Proof.
  unfold post_api_groups, save_new.
  destruct (body_name b) as [n|]; [|by right].
  destruct (validate_group _); [|by right].
  left. split; [done|]. eexists _, _. repeat split.
  - apply new_id_fresh.
  - eexists. split; [done|]. apply find_by_userId_spec. simpl.
    split; [apply lookup_insert_eq|done].
Qed.

(** With a string for [sub] and a well-formed [:id], PUT /api/groups/:id
    keeps the set of stored ids and the owner of every document; the only
    document it can change is the one with that id, and only when its owner
    is [sub]. *)
Lemma put_api_groups_id_keeps_owners (validate_group : Group → bool)
    (id : N) (b : GroupBody) (sub : jsstring) (c : collection Group) :
  let r := put_api_groups_id validate_group id b sub c in
  dom r.2 = dom c
  ∧ ∀ id' g', r.2 !! id' = Some g' →
      ∃ g0, c !! id' = Some g0 ∧ GroupDoc.userId g' = GroupDoc.userId g0
            ∧ (id' ≠ id ∨ GroupDoc.userId g0 ≠ sub → g' = g0).
Proof.
  unfold put_api_groups_id.
  destruct (findOne_by_id_and_userId _ _ _ _) as [g|] eqn:E.
  - apply findOne_by_id_and_userId_Some in E as [Hid Hg].
    destruct (validate_group _); simpl.
    + split.
      * rewrite dom_insert_L. apply elem_of_dom_2 in Hid. set_solver.
      * intros id' g'. destruct (decide (id = id')) as [<-|Hne].
        -- rewrite lookup_insert_eq. intros [= <-]. exists g.
           split; [done|]. split; [done|]. intros [?|?]; done.
        -- rewrite lookup_insert_ne by done. intros Hg'. by exists g'.
    + split; [done|]. intros id' g' Hg'. by exists g'.
  - simpl. split; [done|]. intros id' g' Hg'. by exists g'.
Qed.

(** With a string for [sub] and a well-formed [:id], DELETE /api/groups/:id
    answers 200 exactly when the id holds a group whose owner is [sub]; then
    just that document is removed and a second DELETE of the id answers 404.
    Otherwise it answers 404 and removes nothing. *)
Lemma delete_api_groups_id_outcome (id : N) (sub : jsstring)
    (c : collection Group) :
  let r := delete_api_groups_id id sub c in
  (status r.1 = 200 ↔ ∃ g, c !! id = Some g ∧ GroupDoc.userId g = sub)
  ∧ (status r.1 = 200 →
     r.2 = delete id c ∧ status (delete_api_groups_id id sub r.2).1 = 404)
  ∧ (status r.1 ≠ 200 → status r.1 = 404 ∧ r.2 = c).
Proof.
  intros r.
  assert ((∃ g, c !! id = Some g ∧ GroupDoc.userId g = sub)
          ∧ r = ({| status := 200; body := Message |}, delete id c)
          ∨ (¬ (∃ g, c !! id = Some g ∧ GroupDoc.userId g = sub))
            ∧ r = ({| status := 404; body := ErrorMessage |}, c)) as Hr.
  { unfold r, delete_api_groups_id.
    destruct (findOne_by_id_and_userId _ _ _ _) as [g|] eqn:E.
    - apply findOne_by_id_and_userId_Some in E as [Hid Hg]. left.
      split; [by exists g|done].
    - right. split; [|done]. intros (g & Hid & Hg).
      unfold findOne_by_id_and_userId in E. rewrite Hid in E. simpl in E.
      by rewrite decide_True in E. }
  clearbody r. destruct Hr as [[Hg ->]|[Hg ->]]; simpl.
  - split; [done|]. split; [|done]. intros _. split; [done|].
    unfold delete_api_groups_id, findOne_by_id_and_userId.
    by rewrite lookup_delete_eq.
  - split; [split; [done|by intros ?]|]. split; [done|]. done.
Qed.

(** X20: a group created by POST and then deleted by the same caller leaves
    the collection as it was before the two requests. *)
Theorem post_then_delete_groups (validate_group : Group → bool)
    (b : GroupBody) (sub : jsstring) (c : collection Group) (id : N) (g : Group) :
  let r := post_api_groups validate_group b sub c in
  body r.1 = OneGroup id g →
  delete_api_groups_id id sub r.2 = ({| status := 200; body := Message |}, c).
Proof.
  unfold post_api_groups, save_new.
  destruct (body_name b) as [n|]; [|done].
  destruct (validate_group _); [|done]. simpl. intros [= <- <-].
  unfold delete_api_groups_id, findOne_by_id_and_userId.
  rewrite lookup_insert_eq. simpl. rewrite decide_True by done.
  by rewrite delete_insert_id by apply new_id_fresh.
Qed.

Lemma post_then_delete_groups_witness :
  body (post_api_groups (λ _, true) bob_body (str "bob") alice_store).1
  = OneGroup (new_id alice_store)
      {| GroupDoc.name := str "Taken"; GroupDoc.members := [];
         GroupDoc.userId := str "bob" |}
  ∧ delete_api_groups_id (new_id alice_store) (str "bob")
      (post_api_groups (λ _, true) bob_body (str "bob") alice_store).2
    = ({| status := 200; body := Message |}, alice_store).
Proof.
  assert (body (post_api_groups (λ _, true) bob_body (str "bob") alice_store).1
          = OneGroup (new_id alice_store)
              {| GroupDoc.name := str "Taken"; GroupDoc.members := [];
                 GroupDoc.userId := str "bob" |}) as H by reflexivity.
  split; [exact H|].
  exact (post_then_delete_groups (λ _, true) bob_body (str "bob") alice_store
           _ _ H).
Defined.

(** X24: POST /api/matches answers 201 or 400, and 400 whenever a score is
    missing.  On 201 the match is stored under an [_id] that was not in use,
    with numeric scores, for the caller, whatever [userId] the body names,
    dated as the body says or else now.  On 400 nothing is stored. *)
Theorem post_api_matches_outcome (validate_match : Match → bool) (now : Z)
    (b : MatchBody) (sub : jsstring) (c : collection Match) :
  let r := post_api_matches validate_match now b sub c in
  ((status r.1 = 201
    ∧ ∃ id m, body r.1 = OneMatch id m ∧ userId m = sub ∧ numeric m
              ∧ date m = default now (body_date b)
              ∧ c !! id = None ∧ r.2 = <[id := m]> c)
   ∨ (status r.1 = 400 ∧ r.2 = c))
  ∧ (body_scoreA b = None ∨ body_scoreB b = None → status r.1 = 400).
Proof.
  unfold post_api_matches, save_new.
  destruct (body_scoreA b) as [x|], (body_scoreB b) as [y|];
    try (split; [by right|done]).
  destruct (validate_match _); simpl.
  - split; [|by intros [?|?]]. left. split; [done|].
    eexists _, _. repeat split. apply new_id_fresh.
  - split; [by right|by intros [?|?]].
Qed.

(** * The routes on a request as it arrives *)



Section RequestFacts.
Context {other : Type}.
Variable read_filter : other → option (jsstring → bool).
Variable cast_userId : other → option jsstring.
Variable validate_group : Group → bool.
Variable validate_match : Match → bool.

Local Ltac unchanged_store :=
  simpl; split; [done|];
  let id' := fresh "id" in let g' := fresh "g" in let H := fresh "H" in
  intros id' g' H; exists g'; split; [done|]; split; [done|]; by intros [].

(** X18: PUT /api/groups/:id, whatever the [:id] and the [sub] claim of the
    token are, keeps the set of stored ids and the owner of every document,
    whatever the body names as [userId].  A document it changes is the one
    with that id, and its owner is one the claim selects: the claim itself
    when it is a string; when it is not, an owner that passes the filter the
    claim is read as. *)
Theorem put_request_keeps_owners (id : option N) (b : GroupBody)
    (sub : sub_claim other) (c : collection Group) :
  let r := put_api_groups_id_on other read_filter validate_group id b sub c in
  dom r.2 = dom c
  ∧ ∀ id' g', r.2 !! id' = Some g' →
      ∃ g0, c !! id' = Some g0 ∧ GroupDoc.userId g' = GroupDoc.userId g0
            ∧ (g' ≠ g0 →
               id = Some id' ∧ selects other read_filter sub (GroupDoc.userId g0)).
Proof.
  destruct id as [i|]; [|unchanged_store].
  destruct sub as [s|v]; simpl.
  - destruct (put_api_groups_id_keeps_owners validate_group i b s c)
      as [Hdom Hdocs].
    split; [exact Hdom|]. intros id' g' Hg'.
    destruct (Hdocs id' g' Hg') as (g0 & Hg0 & Hown & Hkeep).
    exists g0. split; [done|]. split; [done|]. intros Hne.
    destruct (decide (id' = i)) as [->|Hid]; [|by destruct Hne; apply Hkeep; left].
    split; [done|].
    destruct (decide (GroupDoc.userId g0 = s)) as [Hs|Hs]; [done|].
    by destruct Hne; apply Hkeep; right.
  - destruct (read_filter v) as [test|] eqn:Ev; [|unchanged_store].
    destruct (c !! i) as [g|] eqn:Ei; [|unchanged_store].
    destruct (test (GroupDoc.userId g)) eqn:Et; [|unchanged_store].
    destruct (validate_group _); [|unchanged_store]. simpl.
    split.
    + rewrite dom_insert_L. apply elem_of_dom_2 in Ei. set_solver.
    + intros id' g'. destruct (decide (i = id')) as [<-|Hne].
      * rewrite lookup_insert_eq. intros [= <-]. exists g.
        split; [done|]. split; [done|]. intros _. split; [done|].
        by exists test.
      * rewrite lookup_insert_ne by done. intros Hg'. exists g'.
        split; [done|]. split; [done|]. by intros [].
Qed.

(** X19: DELETE /api/groups/:id answers 200, 404 or 500.  It answers 500
    exactly when the [:id] is no document id or the [sub] claim cannot be
    read as a filter; it answers 200 exactly when the id holds a group whose
    owner the claim selects (for a string claim: a group of the caller), and
    then just that document is removed and the same request again answers
    404.  On any other answer nothing is removed. *)
Theorem delete_request_outcome (id : option N) (sub : sub_claim other)
    (c : collection Group) :
  let r := delete_api_groups_id_on other read_filter id sub c in
  (status r.1 = 200 ∨ status r.1 = 404 ∨ status r.1 = 500)
  ∧ (status r.1 = 500 ↔ id = None ∨ unreadable other read_filter sub)
  ∧ (status r.1 = 200 ↔
     ∃ i g, id = Some i ∧ c !! i = Some g
            ∧ selects other read_filter sub (GroupDoc.userId g))
  ∧ (status r.1 = 200 →
     ∃ i, id = Some i ∧ r.2 = delete i c
          ∧ status (delete_api_groups_id_on other read_filter id sub r.2).1 = 404)
  ∧ (status r.1 ≠ 200 → r.2 = c).
Proof.
  destruct id as [i|]; simpl.
  2:{ split; [by right; right|]. split; [split; [by left|done]|].
      split; [split; [done|by intros (? & ? & ? & _)]|]. split; done. }
  destruct sub as [s|v]; simpl.
  - destruct (delete_api_groups_id_outcome i s c) as (Hiff & H200 & Hnot).
    destruct (decide (status (delete_api_groups_id i s c).1 = 200)) as [E|E].
    + destruct (H200 E) as [Hc H404].
      split; [by left|].
      split; [split; [by rewrite E|by intros [?|(? & ? & _)]]|].
      split; [split; [|done]|].
      { intros _. apply Hiff in E as (g & ? & ?). by exists i, g. }
      split; [|done]. intros _. exists i. by rewrite Hc in *.
    + destruct (Hnot E) as [H404 Hc].
      split; [by right; left|].
      split; [split; [by rewrite H404|by intros [?|(? & ? & _)]]|].
      split; [split; [done|]|].
      { intros (i' & g & [= <-] & ? & ?). apply Hiff. by exists g. }
      split; done.
  - unfold unreadable.
    destruct (read_filter v) as [test|] eqn:Ev; simpl.
    2:{ split; [by right; right|].
        split; [split; [|done]; intros _; right; by exists v|].
        split; [split; [done|]|].
        { intros (? & ? & _ & _ & test & ? & _). done. }
        split; done. }
    destruct (c !! i) as [g|] eqn:Ei; simpl.
    2:{ split; [by right; left|].
        split; [split; [done|]; by intros [?|(? & [= <-] & ?)]; simplify_eq|].
        split; [split; [done|]|].
        { intros (? & ? & [= <-] & ? & _). simplify_eq. }
        split; done. }
    destruct (test (GroupDoc.userId g)) eqn:Et; simpl.
    + split; [by left|].
      split; [split; [done|]; by intros [?|(? & [= <-] & ?)]; simplify_eq|].
      split; [split; [|done]|].
      { intros _. exists i, g. split; [done|]. split; [done|]. by exists test. }
      split; [|done]. intros _. exists i. split; [done|]. split; [done|].
      by rewrite lookup_delete_eq.
    + split; [by right; left|].
      split; [split; [done|]; by intros [?|(? & [= <-] & ?)]; simplify_eq|].
      split; [split; [done|]|].
      { intros (? & ? & [= <-] & ? & test' & ? & ?). simplify_eq. congruence. }
      split; done.
Qed.



End RequestFacts.


(** * The older server *)

(** X26: on the older server a PUT that names another [userId] hands any
    stored group over: it answers 200 without asking who calls, after it the
    listing for the former owner has lost the group and the listing for the
    named owner has it, and the routes of src/server.js then answer 404 to
    the former owner for that group. *)
Theorem legacy_put_hands_over (c : collection Group) (id : N) (g : Group)
    (u : jsstring) :
  c !! id = Some g → GroupDoc.userId g ≠ u →
  let r := Legacy.put_api_groups_id id (owner_only_body u) c in
  status r.1 = 200
  ∧ (∀ l, (Legacy.get_api_groups (GroupDoc.userId g) r.2).1
          = {| status := 200; body := Groups l |} → id ∉ l.*1)
  ∧ (∃ l g', (Legacy.get_api_groups u r.2).1
             = {| status := 200; body := Groups l |} ∧ (id, g') ∈ l
             ∧ GroupDoc.name g' = GroupDoc.name g
             ∧ GroupDoc.members g' = GroupDoc.members g)
  ∧ status (delete_api_groups_id id (GroupDoc.userId g) r.2).1 = 404.
Proof.
  intros Hid Hu. unfold Legacy.put_api_groups_id. rewrite Hid. simpl.
  split; [done|]. split; [|split].
  - intros l [= <-] Hin. apply list_elem_of_fmap in Hin as ([id' g'] & -> & Hin).
    apply find_by_userId_spec in Hin as [Hl Hg']. simpl in *.
    rewrite lookup_insert_eq in Hl. injection Hl as <-. by simpl in Hg'.
  - eexists _, _. split; [done|]. split.
    + apply find_by_userId_spec. simpl. split; [apply lookup_insert_eq|done].
    + done.
  - unfold delete_api_groups_id, findOne_by_id_and_userId.
    rewrite lookup_insert_eq. simpl. by rewrite decide_False.
Qed.

Lemma legacy_put_hands_over_witness :
  alice_store !! 1%N = Some alice_group
  ∧ GroupDoc.userId alice_group ≠ str "bob"
  ∧ status (Legacy.put_api_groups_id 1 (owner_only_body (str "bob")) alice_store).1
    = 200
  ∧ (∀ l, (Legacy.get_api_groups (GroupDoc.userId alice_group)
             (Legacy.put_api_groups_id 1 (owner_only_body (str "bob")) alice_store).2).1
          = {| status := 200; body := Groups l |} → 1%N ∉ l.*1)
  ∧ (∃ l g', (Legacy.get_api_groups (str "bob")
                (Legacy.put_api_groups_id 1 (owner_only_body (str "bob")) alice_store).2).1
             = {| status := 200; body := Groups l |} ∧ (1%N, g') ∈ l
             ∧ GroupDoc.name g' = GroupDoc.name alice_group
             ∧ GroupDoc.members g' = GroupDoc.members alice_group)
  ∧ status (delete_api_groups_id 1 (GroupDoc.userId alice_group)
              (Legacy.put_api_groups_id 1 (owner_only_body (str "bob")) alice_store).2).1
    = 404.
Proof.
  assert (alice_store !! 1%N = Some alice_group) as H1
    by apply lookup_singleton_eq.
  assert (GroupDoc.userId alice_group ≠ str "bob") as H2 by discriminate.
  split; [exact H1|]. split; [exact H2|].
  exact (legacy_put_hands_over alice_store 1 alice_group (str "bob") H1 H2).
Defined.
